(** * LBFGS-B examples with forward-mode automatic differentiation

    A shallow embedding of the four example programs (quadratic.cpp,
    rosenbrock.cpp, powell.cpp, exponential.cpp): the generic objective
    templates, the [operator()] adapters that seed dual numbers, evaluate
    the objective and write the gradient, and the properties the
    specification states about them.

    Modelling conventions.
    - [using Scalar = double] is kept abstract: every definition is written
      over a scalar type [D] with the arithmetic interface [Arith] (and
      [Elementary] for [exp] and [pow]), the way the objective functions are
      templates over [T].  Two instances are provided: IEEE binary64
      ([PrimFloat.float], for the rounding, overflow and NaN behaviour of the
      compiled program) and the real numbers ([R], for statements about
      derivatives).
    - An Eigen vector is a [list]; [x[i]] out of range is undefined
      behaviour in C++ and is a fault ([None]) here.
    - [const Vector& x] and [Vector& grad] are references: the vectors live
      in a heap indexed by addresses, so that aliasing is expressible. *)

From Stdlib Require Import ZArith QArith Reals Lra Lia.
From Stdlib Require Import Floats.PrimFloat Uint63.
From stdpp Require Import base option list gmap.

Set Default Proof Using "Type".

(* ================================================================== *)
(** * Scalar arithmetic *)
(* ================================================================== *)

(** The operations of [double] the programs use.  [lit q] is the value of
    the decimal literal [q] of the source text; a literal with an integral
    value ([10.0], [4]) is written as that integer. *)
Class Arith (D : Type) : Type := {
  lit : Q -> D;
  add : D -> D -> D;
  sub : D -> D -> D;
  mul : D -> D -> D;
  div : D -> D -> D;
  neg : D -> D;
}.

(** [std::exp] and [std::pow] of the C library. *)
Class Elementary (D : Type) : Type := {
  sexp : D -> D;
  spow : D -> D -> D;
}.

(** ** IEEE binary64 *)

Definition float_of_Z (z : Z) : float :=
  match z with
  | Zneg p => PrimFloat.opp (PrimFloat.of_uint63 (Uint63.of_Z (Zpos p)))
  | _ => PrimFloat.of_uint63 (Uint63.of_Z z)
  end.

(** A decimal literal is rounded to the nearest double: numerator and
    denominator of the literals of these programs are below 2^53, hence
    exact, and the IEEE division rounds their quotient correctly. *)
Definition float_lit (q : Q) : float :=
  PrimFloat.div (float_of_Z (Qnum q)) (float_of_Z (Zpos (Qden q))).

#[export] Instance float_Arith : Arith float := {|
  lit := float_lit;
  add := PrimFloat.add;
  sub := PrimFloat.sub;
  mul := PrimFloat.mul;
  div := PrimFloat.div;
  neg := PrimFloat.opp;
|}.

(** ** Real numbers *)

(** [pow(x, y)] on the reals.  [std::pow] has a real value when [y] is
    integral (repeated multiplication, or its inverse), when [0 < x]
    ([exp (y ln x)]), and at [x = 0 < y] (the value 0).  Elsewhere the
    result of [std::pow] is a NaN ([x < 0] with [y] not integral) or
    infinite ([x = 0] with [y < 0]), which no real number stands for: the
    value taken there is 0, and no statement depends on it.  The sources
    call [pow] with the exponent 4 only. *)
Definition Rpow (x y : R) : R :=
  if Req_dec_T (IZR (Int_part y)) y then powerRZ x (Int_part y)
  else if Rlt_dec 0 x then Rpower x y
  else 0.

#[export] Instance R_Arith : Arith R := {|
  lit := Q2R;
  add := Rplus;
  sub := Rminus;
  mul := Rmult;
  div := Rdiv;
  neg := Ropp;
|}.

#[export] Instance R_Elementary : Elementary R := {|
  sexp := exp;
  spow := Rpow;
|}.

(* ================================================================== *)
(** * Dual numbers: [ceres::Jet] *)
(* ================================================================== *)

Module ceres.
Section Jet.
Context {D : Type} `{Arith D}.

(** Modelled from the spec: [ceres::Jet<T, N>] (ceres/jet.h) is a
    dependency that is not among the repository sources.  A dual number
    is a value [a] with the sequence [v] of its partial derivatives
    (spec section 3, DualNumber). *)
Record Jet : Type := mkJet { a : D; v : list D }.

(** Modelled from the spec: "computed component-wise across the
    derivative sequence" (section 4.1); the sum of two sequences. *)
Definition vadd (u w : list D) : list D := zip_with add u w.
(** Modelled from the spec: the component-wise difference. *)
Definition vsub (u w : list D) : list D := zip_with sub u w.
(** Modelled from the spec: the component-wise negation. *)
Definition vneg (u : list D) : list D := neg <$> u.
(** Modelled from the spec: the product [s * u] by a scalar. *)
Definition vscale (s : D) (u : list D) : list D := mul s <$> u.
(** Modelled from the spec: the product [u * s] by a scalar. *)
Definition vscale_r (u : list D) (s : D) : list D := (fun d => mul d s) <$> u.

(** Modelled from the spec: [Jet()] of a dynamically sized jet: value 0,
    no derivative entries yet. *)
Definition Jet_default : Jet := mkJet (lit 0) [].

(** Modelled from the spec: [Jet(value)] with [N] derivative entries,
    all 0 (a constant). *)
Definition Jet_of (N : nat) (value : D) : Jet :=
  mkJet value (replicate N (lit 0)).

(** Modelled from the spec: the arithmetic of section 4.1,
    [value(f(a,b)) = f(value(a), value(b))] and
    [derivatives(f(a,b)) = df/da * derivatives(a) + df/db * derivatives(b)],
    in the closed forms of ceres/jet.h; here [f + g]. *)
Definition Jet_add (f g : Jet) : Jet :=
  mkJet (add (a f) (a g)) (vadd (v f) (v g)).
(** Modelled from the spec: [f - g]. *)
Definition Jet_sub (f g : Jet) : Jet :=
  mkJet (sub (a f) (a g)) (vsub (v f) (v g)).
(** Modelled from the spec: [f * g], the product rule. *)
Definition Jet_mul (f g : Jet) : Jet :=
  mkJet (mul (a f) (a g))
        (vadd (vscale (a f) (v g)) (vscale_r (v f) (a g))).

(** Modelled from the spec: the overloads that mix a jet with a plain
    scalar [s] (a constant: its derivatives are 0); here [s * f]. *)
Definition Jet_scale (s : D) (f : Jet) : Jet :=
  mkJet (mul s (a f)) (vscale s (v f)).
(** Modelled from the spec: [f - s]. *)
Definition Jet_sub_scalar (f : Jet) (s : D) : Jet :=
  mkJet (sub (a f) s) (v f).
(** Modelled from the spec: [s - f]. *)
Definition Jet_scalar_sub (s : D) (f : Jet) : Jet :=
  mkJet (sub s (a f)) (vneg (v f)).

(** Modelled from the spec: unary functions,
    [derivatives(f(a)) = f'(value(a)) * derivatives(a)]; here [exp(f)]. *)
Definition Jet_exp `{Elementary D} (f : Jet) : Jet :=
  let tmp := sexp (a f) in
  mkJet tmp (vscale tmp (v f)).
(** Modelled from the spec: [pow(f, g)] with a constant exponent [g], as
    the sources call it ([pow(term3, 4)]). *)
Definition Jet_pow `{Elementary D} (f : Jet) (g : D) : Jet :=
  let tmp := mul g (spow (a f) (sub g (lit 1))) in
  mkJet (spow (a f) g) (vscale tmp (v f)).
End Jet.
Arguments Jet D : clear implicits.
End ceres.

Abbreviation Jet := ceres.Jet.
Abbreviation mkJet := ceres.mkJet.

(* ================================================================== *)
(** * The scalar interface of the objective templates *)
(* ================================================================== *)

(** [template<typename T>]: the operations an objective needs from [T],
    with the overloads that mix [T] with a [double] literal. *)
Class Scalar (D T : Type) : Type := {
  t_add : T -> T -> T;        (* T + T *)
  t_sub : T -> T -> T;        (* T - T *)
  t_mul : T -> T -> T;        (* T * T *)
  s_mul : D -> T -> T;        (* double * T *)
  t_sub_s : T -> D -> T;      (* T - double *)
  s_sub_t : D -> T -> T;      (* double - T *)
}.

Class Transcendental (D T : Type) : Type := {
  t_exp : T -> T;             (* exp(T) *)
  t_pow : T -> D -> T;        (* pow(T, double) *)
}.

Declare Scope scalar_scope.
Delimit Scope scalar_scope with S.
Infix "[+]" := t_add (at level 50, left associativity) : scalar_scope.
Infix "[-]" := t_sub (at level 50, left associativity) : scalar_scope.
Infix "[*]" := t_mul (at level 40, left associativity) : scalar_scope.
Infix "[.*]" := s_mul (at level 40, left associativity) : scalar_scope.
Infix "[-.]" := t_sub_s (at level 50, left associativity) : scalar_scope.
Infix "[.-]" := s_sub_t (at level 50, left associativity) : scalar_scope.

#[export] Instance plain_Scalar {D} `{Arith D} : Scalar D D := {|
  t_add := add; t_sub := sub; t_mul := mul;
  s_mul := mul; t_sub_s := sub; s_sub_t := sub;
|}.

#[export] Instance plain_Transcendental {D} `{Elementary D}
  : Transcendental D D := {| t_exp := sexp; t_pow := spow |}.

#[export] Instance Jet_Scalar {D} `{Arith D} : Scalar D (Jet D) := {|
  t_add := ceres.Jet_add; t_sub := ceres.Jet_sub; t_mul := ceres.Jet_mul;
  s_mul := ceres.Jet_scale; t_sub_s := ceres.Jet_sub_scalar;
  s_sub_t := ceres.Jet_scalar_sub;
|}.

#[export] Instance Jet_Transcendental {D} `{Arith D} `{Elementary D}
  : Transcendental D (Jet D) :=
  {| t_exp := ceres.Jet_exp; t_pow := ceres.Jet_pow |}.

(* ================================================================== *)
(** * Vectors and loops *)
(* ================================================================== *)

(** [x[i]] for an [int] index: a fault outside [0, size). *)
Definition at_ {A} (x : list A) (i : Z) : option A :=
  if decide (0 <= i)%Z then x !! Z.to_nat i else None.

(** [x[i] = e] *)
Definition set_ {A} (x : list A) (i : Z) (e : A) : option (list A) :=
  if decide (0 <= i < Z.of_nat (length x))%Z
  then Some (<[Z.to_nat i := e]> x) else None.

(** [for (int i = lo; i < hi; ++i) body], on a fallible computation. *)
Fixpoint for_range {S} (k : nat) (i : Z) (body : Z -> S -> option S) (s : S)
  : option S :=
  match k with
  | O => Some s
  | Datatypes.S k' => s' ← body i s; for_range k' (i + 1)%Z body s'
  end.

Definition for_ {S} (lo hi : Z) (body : Z -> S -> option S) (s : S)
  : option S :=
  for_range (Z.to_nat (hi - lo)) lo body s.

(* ================================================================== *)
(** * The objective templates *)
(* ================================================================== *)

Section Objectives.
Context {D T : Type} `{Arith D} `{Scalar D T}.
Local Open Scope scalar_scope.

(** quadratic.cpp, [simple_quad]:
    [return 0.5 * (10.0 - x[0]) * (10.0 - x[0]);] *)
Definition simple_quad (x : list T) : option T :=
  x0 ← at_ x 0;
  Some (lit 0.5 [.*] (lit 10 [.-] x0) [*] (lit 10 [.-] x0)).

(** rosenbrock.cpp, [rosenbrock_autodiff] *)
Definition rosenbrock_autodiff (x : list T) : option T :=
  x0 ← at_ x 0;
  let fx := (x0 [-.] lit 1) [*] (x0 [-.] lit 1) in
  for_ 1 (Z.of_nat (length x))
    (fun i fx =>
       xi ← at_ x i;
       xp ← at_ x (i - 1);
       let t := xi [-] xp [*] xp in
       Some (fx [+] lit 4 [.*] t [*] t))
    fx.

(** powell.cpp, [powell_autodiff] *)
Definition powell_autodiff `{Transcendental D T} (x : list T) : option T :=
  x0 ← at_ x 0; x1 ← at_ x 1; x2 ← at_ x 2; x3 ← at_ x 3;
  let term1 := x0 [+] lit 10 [.*] x1 in
  let term2 := x2 [-] x3 in
  let term3 := x1 [-] lit 2 [.*] x2 in
  let term4 := x0 [-] x3 in
  Some (term1 [*] term1 [+] lit 5 [.*] term2 [*] term2
        [+] t_pow term3 (lit 4) [+] lit 10 [.*] t_pow term4 (lit 4)).

(** exponential.cpp, [exp_model]: [return ceres::exp(m * x + c);] *)
Definition exp_model `{Transcendental D T} (x m c : T) : T :=
  t_exp (m [*] x [+] c).
End Objectives.

(* ================================================================== *)
(** * Memory: the caller's vectors and the adapter object *)
(* ================================================================== *)

(** The address of an Eigen vector ([Vector&]). *)
Definition addr := positive.

Section Memory.
Context {Obj D : Type}.

(** What a call of [operator()] can see and change: the members of
    [*this], the vectors reachable through the reference arguments, and
    (as an instrument, not program state) the log of the element
    assignments [p[i] = e] performed so far, oldest first. *)
Record state : Type := mkState {
  this : Obj;
  heap : gmap addr (list D);
  written : list (addr * Z);
}.

(** A computation that may fault. *)
Definition M (A : Type) : Type := state -> option (A * state).

Definition ret {A} (x : A) : M A := fun s => Some (x, s).
Definition bind {A B} (m : M A) (k : A -> M B) : M B :=
  fun s => match m s with Some (x, s') => k x s' | None => None end.
Definition lift {A} (o : option A) : M A :=
  fun s => match o with Some x => Some (x, s) | None => None end.

(** a member of [*this] *)
Definition member {A} (f : Obj -> A) : M A := fun s => Some (f (this s), s).

(** [p[i]] as an rvalue *)
Definition read (p : addr) (i : Z) : M D :=
  fun s => x ← heap s !! p; e ← at_ x i; Some (e, s).

(** [p[i] = e] *)
Definition write (p : addr) (i : Z) (e : D) : M unit :=
  fun s => x ← heap s !! p; x' ← set_ x i e;
           Some (tt, mkState (this s) (<[p := x']> (heap s))
                             (written s ++ [(p, i)])).

(** [for (int i = lo; i < hi; ++i) body], threading the locals [A]. *)
Definition for_M {A} (lo hi : Z) (body : Z -> A -> M A) (init : A) : M A :=
  fun s => for_ lo hi (fun i '(x, s) => body i x s) (init, s).
End Memory.
Arguments state : clear implicits.
Arguments M : clear implicits.

Notation "'let*' x := e 'in' k" := (bind e (fun x => k))
  (at level 10, x name, e at level 100, k at level 200).
Notation "e ;; k" := (bind e (fun _ => k))
  (at level 100, k at level 200, right associativity).

(* ================================================================== *)
(** * The adapters ([operator()]) *)
(* ================================================================== *)

(** [SimpleQuadAutoDiff], [RosenbrockAutoDiff] and [PowellAutoDiff] have
    the same member ([int n]) and the same [operator()] up to the objective
    they call. *)
Module Wrapper.
Record t : Type := mk { n : Z }.

Section Call.
Context {D : Type} `{Arith D}.
Variable objective : list (Jet D) -> option (Jet D).

(** [Eigen::VectorXd::Zero(n)] *)
Definition Zero (size : Z) : list D := replicate (Z.to_nat size) (lit 0).

(** [Eigen::Matrix<JetT, Eigen::Dynamic, 1> x_jet(n)]: a negative size
    is a fault. *)
Definition new_jets (size : Z) : option (list (Jet D)) :=
  if decide (0 <= size)%Z
  then Some (replicate (Z.to_nat size) ceres.Jet_default) else None.

(** The body of the seeding loop:
    [deriv = Zero(n); deriv[i] = 1.0; x_jet[i] = JetT(x[i], deriv);] *)
Definition seed_step (size : Z) (px : addr) (i : Z) (x_jet : list (Jet D))
  : M t D (list (Jet D)) :=
  let deriv := Zero size in
  let* deriv := lift (set_ deriv i (lit 1)) in
  let* xi := read px i in
  lift (set_ x_jet i (mkJet xi deriv)).

(** [Scalar operator()(const Vector& x, Vector& grad)] *)
Definition call (px pgrad : addr) : M t D D :=
  let* size := member n in
  let* x_jet := lift (new_jets size) in
  let* x_jet := for_M 0 size (seed_step size px) x_jet in
  let* f_jet := lift (objective x_jet) in
  for_M 0 size
    (fun i _ => let* g := lift (at_ (ceres.v f_jet) i) in write pgrad i g)
    tt ;;
  ret (ceres.a f_jet).
End Call.
End Wrapper.

Definition SimpleQuadAutoDiff_call {D} `{Arith D} :=
  Wrapper.call (D := D) simple_quad.
Definition RosenbrockAutoDiff_call {D} `{Arith D} :=
  Wrapper.call (D := D) rosenbrock_autodiff.
Definition PowellAutoDiff_call {D} `{Arith D} `{Elementary D} :=
  Wrapper.call (D := D) powell_autodiff.

(** exponential.cpp, [ExpFitAutoDiff] *)
Module ExpFit.
Section Call.
Context {D : Type} `{Arith D} `{Elementary D}.
Local Open Scope scalar_scope.

Record t : Type := mk { x_data : list D; y_data : list D }.

(** [using JetT = Jet<Scalar, 2>]; [Eigen::Vector2d(p, q)] is [[p; q]]. *)
Definition JetT (value : D) : Jet D := ceres.Jet_of 2 value.

(** The body of the loop over the observations. *)
Definition loss_step (m c : Jet D) (i : Z) (loss : Jet D)
  : M t D (Jet D) :=
  let* xi := bind (member x_data) (fun xs => lift (at_ xs i)) in
  let y_pred := exp_model (JetT xi) m c in
  let* yi := bind (member y_data) (fun ys => lift (at_ ys i)) in
  let residual := y_pred [-.] yi in
  ret (loss [+] residual [*] residual).

(** [JetT m(params[0], Eigen::Vector2d(1.0, 0.0))] and
    [JetT c(params[1], Eigen::Vector2d(0.0, 1.0))] *)
Definition m_seed (params0 : D) : Jet D := mkJet params0 [lit 1; lit 0].
Definition c_seed (params1 : D) : Jet D := mkJet params1 [lit 0; lit 1].

(** [Scalar operator()(const Vector& params, Vector& grad)] *)
Definition call (pparams pgrad : addr) : M t D D :=
  let* p0 := read pparams 0 in
  let m := m_seed p0 in
  let* p1 := read pparams 1 in
  let c := c_seed p1 in
  let loss := JetT (lit 0) in
  let* size := member (fun o => Z.of_nat (length (x_data o))) in
  let* loss := for_M 0 size (loss_step m c) loss in
  let* g0 := lift (at_ (ceres.v loss) 0) in
  write pgrad 0 g0 ;;
  let* g1 := lift (at_ (ceres.v loss) 1) in
  write pgrad 1 g1 ;;
  ret (ceres.a loss).
End Call.
Arguments t D : clear implicits.
End ExpFit.

(* ================================================================== *)
(** * The example programs ([main]) *)
(* ================================================================== *)

Module exponential.
(** exponential.cpp, [main]: [kNumObservations] and the literals of
    [const double data[]], in the order of the source. *)
Definition kNumObservations : Z := 67.

Definition data_literals : list Q := [
    0.000000e+00; 1.133898e+00;
    7.500000e-02; 1.334902e+00;
    1.500000e-01; 1.213546e+00;
    2.250000e-01; 1.252016e+00;
    3.000000e-01; 1.392265e+00;
    3.750000e-01; 1.314458e+00;
    4.500000e-01; 1.472541e+00;
    5.250000e-01; 1.536218e+00;
    6.000000e-01; 1.355679e+00;
    6.750000e-01; 1.463566e+00;
    7.500000e-01; 1.490201e+00;
    8.250000e-01; 1.658699e+00;
    9.000000e-01; 1.067574e+00;
    9.750000e-01; 1.464629e+00;
    1.050000e+00; 1.402653e+00;
    1.125000e+00; 1.713141e+00;
    1.200000e+00; 1.527021e+00;
    1.275000e+00; 1.702632e+00;
    1.350000e+00; 1.423899e+00;
    1.425000e+00; 1.543078e+00;
    1.500000e+00; 1.664015e+00;
    1.575000e+00; 1.732484e+00;
    1.650000e+00; 1.543296e+00;
    1.725000e+00; 1.959523e+00;
    1.800000e+00; 1.685132e+00;
    1.875000e+00; 1.951791e+00;
    1.950000e+00; 2.095346e+00;
    2.025000e+00; 2.361460e+00;
    2.100000e+00; 2.169119e+00;
    2.175000e+00; 2.061745e+00;
    2.250000e+00; 2.178641e+00;
    2.325000e+00; 2.104346e+00;
    2.400000e+00; 2.584470e+00;
    2.475000e+00; 1.914158e+00;
    2.550000e+00; 2.368375e+00;
    2.625000e+00; 2.686125e+00;
    2.700000e+00; 2.712395e+00;
    2.775000e+00; 2.499511e+00;
    2.850000e+00; 2.558897e+00;
    2.925000e+00; 2.309154e+00;
    3.000000e+00; 2.869503e+00;
    3.075000e+00; 3.116645e+00;
    3.150000e+00; 3.094907e+00;
    3.225000e+00; 2.471759e+00;
    3.300000e+00; 3.017131e+00;
    3.375000e+00; 3.232381e+00;
    3.450000e+00; 2.944596e+00;
    3.525000e+00; 3.385343e+00;
    3.600000e+00; 3.199826e+00;
    3.675000e+00; 3.423039e+00;
    3.750000e+00; 3.621552e+00;
    3.825000e+00; 3.559255e+00;
    3.900000e+00; 3.530713e+00;
    3.975000e+00; 3.561766e+00;
    4.050000e+00; 3.544574e+00;
    4.125000e+00; 3.867945e+00;
    4.200000e+00; 4.049776e+00;
    4.275000e+00; 3.885601e+00;
    4.350000e+00; 4.110505e+00;
    4.425000e+00; 4.345320e+00;
    4.500000e+00; 4.161241e+00;
    4.575000e+00; 4.363407e+00;
    4.650000e+00; 4.161576e+00;
    4.725000e+00; 4.619728e+00;
    4.800000e+00; 4.737410e+00;
    4.875000e+00; 4.727863e+00;
    4.950000e+00; 4.669206e+00
  ]%Q.

Section Main.
Context {D : Type} `{Arith D}.

Definition data : list D := lit <$> data_literals.

(** [for (i = 0; i < kNumObservations; ++i)
     { x_vals.push_back(data[2 * i]); y_vals.push_back(data[2 * i + 1]); }] *)
Definition extract : option (list D * list D) :=
  for_ 0 kNumObservations
    (fun i '(x_vals, y_vals) =>
       dx ← at_ data (2 * i);
       dy ← at_ data (2 * i + 1);
       Some (x_vals ++ [dx], y_vals ++ [dy]))
    ([], []).

(** [ExpFitAutoDiff fun(x_vals, y_vals)] *)
Definition fun_ `{Elementary D} : option (ExpFit.t D) :=
  '(x_vals, y_vals) ← extract; Some (ExpFit.mk x_vals y_vals).

(** [params << 0.0, 0.0] *)
Definition params : list D := [lit 0; lit 0].
End Main.
End exponential.

Module powell.
Section Main.
Context {D : Type} `{Arith D}.

(** powell.cpp, [main] *)
Definition n : Z := 4.
Definition fun_ : Wrapper.t := Wrapper.mk n.
Definition epsilon : D := lit 1e-8.
Definition max_iterations : nat := 500.

(** [x << 3.0, -1.0, 0.0, 1.0] *)
Definition x : list D := [lit 3; lit (-1); lit 0; lit 1].

(** [lb = Constant(n, -2.0); lb[2] = -infinity] and
    [ub = Constant(n, 2.0); ub[2] = +infinity]; an infinite bound is
    [None]. *)
Definition lb : list (option D) :=
  <[2%nat := None]> (replicate (Z.to_nat n) (Some (lit (-2)))).
Definition ub : list (option D) :=
  <[2%nat := None]> (replicate (Z.to_nat n) (Some (lit 2))).
End Main.
End powell.

(* ================================================================== *)
(** * Specification-side definitions *)
(* ================================================================== *)

Section Seeding.
Context {D : Type} `{Arith D}.

(** Spec section 4.1: the [i]-th standard basis vector of dimension [N],
    1.0 at position [i] and 0.0 elsewhere. *)
Definition basis (N i : nat) : list D :=
  (fun k => if decide (k = i) then lit 1 else lit 0) <$> seq 0 N.

(** Spec section 4.1: [seed(x, n)], one dual number per index in
    [[0, n)], with value [x[i]] and derivatives the [i]-th basis vector. *)
Definition seed (x : list D) (N : nat) : list (Jet D) :=
  imap (fun i xi => mkJet xi (basis N i)) (take N x).

(** Spec section 3, DualNumber: the derivative sequence has the length
    of the dimensionality. *)
Definition dim (N : nat) (j : Jet D) : Prop := length (ceres.v j) = N.

(** The assignments [grad[0] = .., .., grad[N-1] = ..] in this order. *)
Definition assignments (pgrad : addr) (N : nat) : list (addr * Z) :=
  (fun k => (pgrad, Z.of_nat k)) <$> seq 0 N.

(** The vector [g] with its first [N] components overwritten by those
    of [gs]. *)
Definition overwrite (N : nat) (gs g : list D) : list D :=
  take N gs ++ drop N g.

(** The state after the assignments [grad[0..N) = gs[0..N)]: nothing
    else differs from [s]. *)
Definition graded {Obj} (s : state Obj D) (pgrad : addr) (N : nat)
    (gs g : list D) : state Obj D :=
  mkState (this s) (<[pgrad := overwrite N gs g]> (heap s))
          (written s ++ assignments pgrad N).
End Seeding.

Section ClosedForms.
Context {D T : Type} `{Arith D} `{Scalar D T}.
Local Open Scope scalar_scope.

(** [t^2], as the sources write it: [t * t]. *)
Definition sq (t : T) : T := t [*] t.

(** The sum of the terms [4 * (x[i] - x[i-1]^2)^2] over the components
    [rest] that follow [prev], added to [acc] from left to right. *)
Fixpoint rosenbrock_sum (prev : T) (rest : list T) (acc : T) : T :=
  match rest with
  | [] => acc
  | xi :: rest' =>
      rosenbrock_sum xi rest'
        (acc [+] lit 4 [.*] (xi [-] sq prev) [*] (xi [-] sq prev))
  end.

(** [(x[0] - 1)^2] plus the sum over [i] from 1 to [n - 1] of
    [4 * (x[i] - x[i-1]^2)^2]; there is no value for an empty vector. *)
Definition rosenbrock_closed (x : list T) : option T :=
  match x with
  | [] => None
  | x0 :: rest => Some (rosenbrock_sum x0 rest (sq (x0 [-.] lit 1)))
  end.

(** The least-squares loss of the exponential model over the
    observations [(xs[i], ys[i])], added from left to right starting
    from 0; [const] turns a [double] into a [T]. *)
Definition loss_step `{Transcendental D T} (const : D -> T) (m c : T)
    (loss : T) (obs : D * D) : T :=
  loss [+] sq (exp_model (const obs.1) m c [-.] obs.2).
Definition loss_of `{Transcendental D T} (const : D -> T)
    (xs ys : list D) (m c : T) : T :=
  foldl (loss_step const m c) (const (lit 0)) (zip xs ys).
End ClosedForms.

Section RealAnalysis.
Local Open Scope R_scope.

(** The sum of a list of reals. *)
Definition Rsum (l : list R) : R := foldr Rplus 0 l.

(** [(x[0] - 1)^2 + sum_{i=1}^{n-1} 4 (x[i] - x[i-1]^2)^2] *)
Definition rosenbrock_R (x : list R) : R :=
  (nth 0 x 0 - 1) ^ 2
  + Rsum ((fun i => 4 * (nth i x 0 - nth (i - 1) x 0 ^ 2) ^ 2)
            <$> seq 1 (length x - 1)).


(** [sum_i (exp(m x_i + c) - y_i)^2] *)
Definition exp_loss (xs ys : list R) (m c : R) : R :=
  Rsum (zip_with (fun x y => (exp (m * x + c) - y) ^ 2) xs ys).

(** The dual number [j] carries, in its value and in component [k] of
    its derivatives, the value and the derivative at [t] of [F]. *)
Definition tracks (k : nat) (F : R -> R) (t : R) (j : Jet R) : Prop :=
  ceres.a j = F t /\
  exists d, ceres.v j !! k = Some d /\ derivable_pt_lim F t d.


End RealAnalysis.

(* ================================================================== *)
(** * Gradients, and the calls that stay within bounds *)
(* ================================================================== *)

Section Gradients.
Local Open Scope R_scope.

(** [0.5 (10 - x[0])^2] *)
Definition simple_quad_R (x : list R) : R := 0.5 * (10 - nth 0 x 0) ^ 2.

(** The point [x] as functions of its [k]-th coordinate: the identity at
    position [k], the constant [x[i]] elsewhere. *)
Definition along (k : nat) (x : list R) : list (R -> R) :=
  imap (fun i xi => if decide (i = k) then (fun t => t) else (fun _ => xi)) x.

(** A vector of functions at the argument [s]. *)
Definition at_point (Fs : list (R -> R)) (s : R) : list R :=
  (fun F => F s) <$> Fs.

(** [g] is the gradient of [f] at [x]: as long as [x], and [g[k]] is the
    derivative of [f] along the [k]-th coordinate at [x[k]]. *)
Definition gradient_of (f : list R -> R) (x g : list R) : Prop :=
  length g = length x /\
  forall k xk gk, x !! k = Some xk -> g !! k = Some gk ->
    derivable_pt_lim (fun t => f (<[k := t]> x)) xk gk.
(** The components after [prev] are each the square of the one before:
    [rest[0] = prev^2], [rest[1] = rest[0]^2], ... *)
Fixpoint squares (prev : R) (rest : list R) : Prop :=
  match rest with
  | [] => True
  | xi :: rest' => xi = prev ^ 2 /\ squares xi rest'
  end.
End Gradients.

Section WellFormed.
Context {D : Type}.

(** The calls of a dynamic adapter that stay within bounds: the dimension
    is at least [m] (1 for the quadratic and the Rosenbrock objective, 4
    for the Powell objective), and [x] and [grad] are vectors with at least
    [n] components. *)
Definition well_formed_call (m : Z) (px pgrad : addr)
    (s : state Wrapper.t D) : Prop :=
  (m <= Wrapper.n (this s))%Z /\
  exists x g, heap s !! px = Some x /\ heap s !! pgrad = Some g /\
              Z.to_nat (Wrapper.n (this s)) <= length x /\
              Z.to_nat (Wrapper.n (this s)) <= length g.

(** The same for the exponential adapter: [params] and [grad] have at
    least 2 components and [y_data] is at least as long as [x_data]. *)
Definition well_formed_fit (pparams pgrad : addr)
    (s : state (ExpFit.t D) D) : Prop :=
  length (ExpFit.x_data (this s)) <= length (ExpFit.y_data (this s)) /\
  exists p g, heap s !! pparams = Some p /\ heap s !! pgrad = Some g /\
              2 <= length p /\ 2 <= length g.
End WellFormed.

(* ================================================================== *)
(** * Vectors and loops: basic facts *)
(* ================================================================== *)

Lemma at_of_nat {A} (x : list A) (k : nat) : at_ x (Z.of_nat k) = x !! k.
Proof.
  unfold at_. rewrite decide_True by lia. by rewrite Nat2Z.id.
Qed.

Lemma set_of_nat {A} (x : list A) (k : nat) (e : A) :
  k < length x -> set_ x (Z.of_nat k) e = Some (<[k := e]> x).
Proof.
  intros Hk. unfold set_. rewrite decide_True by lia. by rewrite Nat2Z.id.
Qed.

(** The loop rule: an invariant indexed by the number of iterations done. *)
Lemma for_range_inv {S} (I : nat -> S -> Prop) (body : Z -> S -> option S)
    (k : nat) (lo : Z) (s : S) :
  I 0 s ->
  (forall j s, j < k -> I j s ->
     exists s', body (lo + Z.of_nat j)%Z s = Some s' /\ I (Datatypes.S j) s') ->
  exists s', for_range k lo body s = Some s' /\ I k s'.
Proof.
  revert I lo s. induction k as [| k IH]; intros I lo s H0 Hstep.
  - exists s. split; [reflexivity | exact H0].
  - destruct (Hstep 0 s) as (s1 & Hb & H1); [lia | exact H0 |].
    rewrite Z.add_0_r in Hb. simpl. rewrite Hb. simpl.
    apply (IH (fun j => I (Datatypes.S j))); [exact H1 |].
    intros j s2 Hj Hs2. destruct (Hstep (Datatypes.S j) s2) as (s3 & Hb3 & H3);
      [lia | exact Hs2 |].
    exists s3. split; [| exact H3].
    rewrite <- Hb3. f_equal. lia.
Qed.

Lemma for_inv {S} (I : nat -> S -> Prop) (body : Z -> S -> option S)
    (N : nat) (s : S) :
  I 0 s ->
  (forall j s, j < N -> I j s ->
     exists s', body (Z.of_nat j) s = Some s' /\ I (Datatypes.S j) s') ->
  exists s', for_ 0 (Z.of_nat N) body s = Some s' /\ I N s'.
Proof.
  intros H0 Hstep. unfold for_.
  replace (Z.to_nat (Z.of_nat N - 0)) with N by lia.
  apply for_range_inv; [exact H0 |].
  intros j s1 Hj Hs1. rewrite Z.add_0_l. by apply Hstep.
Qed.

Lemma for_M_inv {Obj D A} (I : nat -> A -> state Obj D -> Prop)
    (body : Z -> A -> M Obj D A) (N : nat) (init : A) (s : state Obj D) :
  I 0 init s ->
  (forall j x s, j < N -> I j x s ->
     exists x' s', body (Z.of_nat j) x s = Some (x', s') /\ I (Datatypes.S j) x' s') ->
  exists x' s', for_M 0 (Z.of_nat N) body init s = Some (x', s') /\ I N x' s'.
Proof.
  intros H0 Hstep. unfold for_M.
  destruct (for_inv (fun j xs => I j xs.1 xs.2)
              (fun i '(x, s) => body i x s) N (init, s)) as ([x' s'] & Hr & HI).
  - exact H0.
  - intros j [x1 s1] Hj Hs1. destruct (Hstep j x1 s1 Hj Hs1) as (x2 & s2 & Hb & H2).
    exists (x2, s2). split; [exact Hb | exact H2].
  - exists x', s'. split; [exact Hr | exact HI].
Qed.

(* ================================================================== *)
(** * The adapters: what one call does *)
(* ================================================================== *)

Lemma bind_Some {Obj D A B} (m : M Obj D A) (k : A -> M Obj D B)
    (s s' : state Obj D) (x : A) :
  m s = Some (x, s') -> bind m k s = k x s'.
Proof. intros Hm. unfold bind. by rewrite Hm. Qed.

Lemma lift_Some {Obj D A} (o : option A) (x : A) (s : state Obj D) :
  o = Some x -> lift o s = Some (x, s).
Proof. by intros ->. Qed.

Section WrapperFacts.
Context {D : Type} `{Arith D}.

Lemma Zero_of_nat (N : nat) : Wrapper.Zero (Z.of_nat N) = replicate N (lit 0 : D).
Proof. unfold Wrapper.Zero. by rewrite Nat2Z.id. Qed.

Lemma basis_length (N i : nat) : length (basis (D := D) N i) = N.
Proof. unfold basis. by rewrite length_fmap, length_seq. Qed.

Lemma basis_lookup (N i k : nat) :
  k < N ->
  basis (D := D) N i !! k = Some (if decide (k = i) then lit 1 else lit 0).
Proof.
  intros Hk. unfold basis. rewrite list_lookup_fmap, lookup_seq_lt by done.
  reflexivity.
Qed.

(** [deriv = Zero(n); deriv[i] = 1.0] builds the basis vector. *)
Lemma basis_insert (N i : nat) :
  i < N -> <[i := lit 1]> (replicate N (lit 0)) = basis (D := D) N i.
Proof.
  intros Hi. apply list_eq. intros k.
  destruct (decide (k < N)) as [Hk | Hk].
  - rewrite basis_lookup by done. case_decide as Hki.
    + subst k. apply list_lookup_insert_eq. by rewrite length_replicate.
    + rewrite list_lookup_insert_ne by done. by apply lookup_replicate_2.
  - rewrite !lookup_ge_None_2; [done | |].
    + rewrite basis_length. lia.
    + rewrite length_insert, length_replicate. lia.
Qed.

Lemma seed_length (x : list D) (N : nat) :
  N <= length x -> length (seed x N) = N.
Proof. intros Hx. unfold seed. rewrite length_imap, length_take. lia. Qed.

Lemma seed_lookup (x : list D) (N i : nat) (xi : D) :
  i < N -> x !! i = Some xi -> seed x N !! i = Some (mkJet xi (basis N i)).
Proof.
  intros Hi Hx. unfold seed. rewrite list_lookup_imap.
  rewrite lookup_take_lt by done. by rewrite Hx.
Qed.

Lemma seed_step_list (x : list D) (N j : nat) (xj : D) :
  j < N -> x !! j = Some xj ->
  <[j := mkJet xj (basis N j)]>
    (imap (fun i xi => mkJet xi (basis N i)) (take j x)
       ++ replicate (N - j) ceres.Jet_default)
  = imap (fun i xi => mkJet xi (basis N i)) (take (S j) x)
       ++ replicate (N - S j) ceres.Jet_default.
Proof.
  intros Hj Hx.
  assert (Hlen : length (take j x) = j).
  { rewrite length_take. apply lookup_lt_Some in Hx. lia. }
  rewrite (take_S_r _ _ _ Hx), imap_app, Hlen.
  replace (N - j) with (S (N - S j)) by lia. simpl.
  rewrite insert_app_r_alt by (rewrite length_imap; lia).
  rewrite length_imap, Hlen, Nat.sub_diag. simpl.
  rewrite Nat.add_0_r, <- app_assoc. reflexivity.
Qed.

(** The seeding loop computes [seed x n] and changes nothing. *)
Lemma seeding_loop (px : addr) (x : list D) (N : nat) (s : state Wrapper.t D) :
  heap s !! px = Some x -> N <= length x ->
  for_M 0 (Z.of_nat N) (Wrapper.seed_step (Z.of_nat N) px)
    (replicate N ceres.Jet_default) s = Some (seed x N, s).
Proof.
  intros Hpx HN.
  destruct (for_M_inv
    (fun j x_jet s' => s' = s /\
       x_jet = imap (fun i xi => mkJet xi (basis N i)) (take j x)
                 ++ replicate (N - j) ceres.Jet_default)
    (Wrapper.seed_step (Z.of_nat N) px) N
    (replicate N ceres.Jet_default) s) as (x_jet & s' & Hrun & -> & ->).
  - split; [done |]. rewrite take_0. simpl. by rewrite Nat.sub_0_r.
  - intros j x_jet s1 Hj [-> ->].
    destruct (lookup_lt_is_Some_2 x j) as [xj Hxj]; [lia |].
    exists (imap (fun i xi => mkJet xi (basis N i)) (take (S j) x)
              ++ replicate (N - S j) ceres.Jet_default), s.
    split; [| done].
    unfold Wrapper.seed_step, bind, lift, read.
    rewrite Zero_of_nat, set_of_nat by (rewrite length_replicate; lia).
    rewrite basis_insert by done. rewrite Hpx. simpl.
    rewrite at_of_nat, Hxj. simpl.
    rewrite set_of_nat.
    + by rewrite (seed_step_list x N j xj).
    + rewrite length_app, length_imap, length_take, length_replicate. lia.
  - rewrite Hrun. f_equal. f_equal.
    rewrite Nat.sub_diag. simpl. rewrite app_nil_r. reflexivity.
Qed.

Lemma overwrite_length (N : nat) (gs g : list D) :
  N <= length gs -> N <= length g -> length (overwrite N gs g) = length g.
Proof.
  intros Hgs Hg. unfold overwrite.
  rewrite length_app, length_take, length_drop. lia.
Qed.

Lemma overwrite_step (j : nat) (gs g : list D) (e : D) :
  gs !! j = Some e -> j < length g ->
  <[j := e]> (overwrite j gs g) = overwrite (S j) gs g.
Proof.
  intros Hgs Hg. unfold overwrite.
  assert (Hlen : length (take j gs) = j).
  { rewrite length_take. apply lookup_lt_Some in Hgs. lia. }
  destruct (lookup_lt_is_Some_2 g j Hg) as [y Hy].
  rewrite (take_S_r _ _ _ Hgs), (drop_S _ _ _ Hy).
  rewrite insert_app_r_alt by lia. rewrite Hlen, Nat.sub_diag. simpl.
  by rewrite <- app_assoc.
Qed.

Lemma overwrite_lookup_lt (N : nat) (gs g : list D) (i : nat) :
  i < N -> N <= length gs -> overwrite N gs g !! i = gs !! i.
Proof.
  intros Hi HN. unfold overwrite.
  rewrite lookup_app_l by (rewrite length_take; lia).
  by rewrite lookup_take_lt.
Qed.

Lemma overwrite_lookup_ge (N : nat) (gs g : list D) (i : nat) :
  N <= i -> N <= length gs -> overwrite N gs g !! i = g !! i.
Proof.
  intros Hi HN. unfold overwrite.
  rewrite lookup_app_r by (rewrite length_take; lia).
  rewrite length_take, lookup_drop. f_equal. lia.
Qed.

Lemma assignments_S (pgrad : addr) (j : nat) :
  assignments pgrad (S j) = assignments pgrad j ++ [(pgrad, Z.of_nat j)].
Proof. unfold assignments. rewrite seq_S, fmap_app. reflexivity. Qed.

(** One assignment [grad[j] = gs[j]]. *)
Lemma write_graded {Obj} (s : state Obj D) (pgrad : addr) (j : nat)
    (gs g : list D) (e : D) :
  gs !! j = Some e -> j < length g ->
  write pgrad (Z.of_nat j) e (graded s pgrad j gs g)
  = Some (tt, graded s pgrad (S j) gs g).
Proof.
  intros Hgs Hg. unfold write, graded. simpl.
  rewrite lookup_insert_eq. simpl.
  rewrite set_of_nat.
  2:{ rewrite overwrite_length; [done | | lia].
      apply lookup_lt_Some in Hgs. lia. }
  simpl. rewrite insert_insert_eq, (overwrite_step j gs g e) by done.
  by rewrite assignments_S, app_assoc.
Qed.

Lemma graded_0 {Obj} (s : state Obj D) (pgrad : addr) (gs g : list D) :
  heap s !! pgrad = Some g -> graded s pgrad 0 gs g = s.
Proof.
  intros Hg. unfold graded, overwrite, assignments. simpl.
  rewrite drop_0, insert_id, app_nil_r by done. by destruct s.
Qed.

(** The loop [for (i = 0; i < n; ++i) grad[i] = f_jet.v[i];] *)
Lemma gradient_loop {Obj} (pgrad : addr) (gs g : list D) (N : nat)
    (s : state Obj D) :
  heap s !! pgrad = Some g -> N <= length g -> N <= length gs ->
  for_M 0 (Z.of_nat N)
    (fun i _ => let* e := lift (at_ gs i) in write pgrad i e) tt s
  = Some (tt, graded s pgrad N gs g).
Proof.
  intros Hpg Hg Hgs.
  destruct (for_M_inv
    (fun j (_ : unit) s' => s' = graded s pgrad j gs g)
    (fun i _ => let* e := lift (at_ gs i) in write pgrad i e) N tt s)
    as ([] & s' & Hrun & ->).
  - by rewrite graded_0.
  - intros j [] s1 Hj ->.
    destruct (lookup_lt_is_Some_2 gs j) as [e He]; [lia |].
    exists tt, (graded s pgrad (S j) gs g). split; [| done].
    unfold bind, lift. rewrite at_of_nat, He.
    apply write_graded; [done | lia].
  - exact Hrun.
Qed.

(** What one call of [operator()] does, for any objective. *)
Lemma Wrapper_call_spec (objective : list (Jet D) -> option (Jet D))
    (px pgrad : addr) (s : state Wrapper.t D) (x g : list D) (r : Jet D) :
  let N := Z.to_nat (Wrapper.n (this s)) in
  (0 <= Wrapper.n (this s))%Z ->
  heap s !! px = Some x -> heap s !! pgrad = Some g ->
  N <= length x -> N <= length g ->
  objective (seed x N) = Some r -> N <= length (ceres.v r) ->
  Wrapper.call objective px pgrad s
  = Some (ceres.a r, graded s pgrad N (ceres.v r) g).
Proof.
  intros N Hn Hpx Hpg Hx Hg Hobj Hr.
  assert (Hsize : Wrapper.n (this s) = Z.of_nat N) by (unfold N; lia).
  unfold Wrapper.call.
  rewrite (bind_Some _ _ s s (Z.of_nat N)) by (unfold member; by rewrite Hsize).
  rewrite (bind_Some _ _ s s (replicate N ceres.Jet_default)).
  2:{ apply lift_Some. unfold Wrapper.new_jets.
      rewrite decide_True by lia. by rewrite Nat2Z.id. }
  rewrite (bind_Some _ _ _ _ _ (seeding_loop px x N s Hpx Hx)).
  rewrite (bind_Some _ _ s s r) by (by apply lift_Some).
  rewrite (bind_Some _ _ _ _ _
             (gradient_loop pgrad (ceres.v r) g N s Hpg Hg Hr)).
  reflexivity.
Qed.
End WrapperFacts.

(* ================================================================== *)
(** * The dual numbers of one evaluation share their dimension *)
(* ================================================================== *)

Section Dimension.
Context {D : Type} `{Arith D}.
Local Open Scope scalar_scope.

Lemma dim_add (N : nat) (f g : Jet D) :
  dim N f -> dim N g -> dim N (f [+] g).
Proof.
  unfold dim. intros Hf Hg. simpl. unfold ceres.vadd.
  rewrite length_zip_with. lia.
Qed.

Lemma dim_sub (N : nat) (f g : Jet D) :
  dim N f -> dim N g -> dim N (f [-] g).
Proof.
  unfold dim. intros Hf Hg. simpl. unfold ceres.vsub.
  rewrite length_zip_with. lia.
Qed.

Lemma dim_mul (N : nat) (f g : Jet D) :
  dim N f -> dim N g -> dim N (f [*] g).
Proof.
  unfold dim. intros Hf Hg. simpl.
  unfold ceres.vadd, ceres.vscale, ceres.vscale_r.
  rewrite length_zip_with, !length_fmap. lia.
Qed.

Lemma dim_scale (N : nat) (s : D) (f : Jet D) :
  dim N f -> dim N (s [.*] f).
Proof.
  unfold dim. intros Hf. simpl. unfold ceres.vscale.
  by rewrite length_fmap.
Qed.

Lemma dim_sub_scalar (N : nat) (f : Jet D) (s : D) :
  dim N f -> dim N (f [-.] s).
Proof. unfold dim. by intros Hf. Qed.

Lemma dim_scalar_sub (N : nat) (s : D) (f : Jet D) :
  dim N f -> dim N (s [.-] f).
Proof.
  unfold dim. intros Hf. simpl. unfold ceres.vneg. by rewrite length_fmap.
Qed.

Lemma dim_exp `{Elementary D} (N : nat) (f : Jet D) :
  dim N f -> dim N (t_exp f).
Proof.
  unfold dim. intros Hf. simpl. unfold ceres.vscale. by rewrite length_fmap.
Qed.

Lemma dim_pow `{Elementary D} (N : nat) (f : Jet D) (g : D) :
  dim N f -> dim N (t_pow f g).
Proof.
  unfold dim. intros Hf. simpl. unfold ceres.vscale. by rewrite length_fmap.
Qed.

Lemma dim_Jet_of (N : nat) (value : D) : dim N (ceres.Jet_of N value).
Proof. unfold dim. simpl. by rewrite length_replicate. Qed.

Lemma seed_dim (x : list D) (N : nat) : Forall (dim N) (seed x N).
Proof.
  apply Forall_lookup. intros i j Hj. unfold seed in Hj.
  rewrite list_lookup_imap in Hj.
  destruct (take N x !! i) as [xi |]; [| done].
  simpl in Hj. injection Hj as <-. unfold dim. simpl. apply basis_length.
Qed.

Lemma at_dim (N : nat) (xs : list (Jet D)) (i : Z) (j : Jet D) :
  Forall (dim N) xs -> at_ xs i = Some j -> dim N j.
Proof.
  intros Hxs Hj. unfold at_ in Hj. case_decide; [| done].
  by apply (Forall_lookup_1 _ _ _ _ Hxs Hj).
Qed.

Lemma at_is_Some {A} (xs : list A) (k : nat) :
  k < length xs -> is_Some (at_ xs (Z.of_nat k)).
Proof. intros Hk. rewrite at_of_nat. by apply lookup_lt_is_Some_2. Qed.

(** [simple_quad] reads [x[0]] only. *)
Lemma simple_quad_dim (N : nat) (xs : list (Jet D)) :
  Forall (dim N) xs -> 1 <= length xs ->
  exists r, simple_quad xs = Some r /\ dim N r.
Proof.
  intros Hxs Hlen. destruct (at_is_Some xs 0) as [x0 H0]; [lia |].
  unfold simple_quad. change (Z.of_nat 0) with 0%Z in H0.
  rewrite H0. simpl. eexists. split; [reflexivity |].
  pose proof (at_dim N xs 0 x0 Hxs H0) as Hd.
  apply dim_mul; [apply dim_scale |]; by apply dim_scalar_sub.
Qed.

(** [rosenbrock_autodiff] reads [x[0]] and then [x[i]], [x[i-1]] for
    [1 <= i < size]. *)
Lemma rosenbrock_autodiff_dim (N : nat) (xs : list (Jet D)) :
  Forall (dim N) xs -> 1 <= length xs ->
  exists r, rosenbrock_autodiff xs = Some r /\ dim N r.
Proof.
  intros Hxs Hlen. destruct (at_is_Some xs 0) as [x0 H0]; [lia |].
  change (Z.of_nat 0) with 0%Z in H0.
  unfold rosenbrock_autodiff. rewrite H0. simpl.
  pose proof (at_dim N xs 0 x0 Hxs H0) as Hd0.
  unfold for_.
  destruct (for_range_inv (fun _ fx => dim N fx)
    (fun i fx => xi ← at_ xs i; xp ← at_ xs (i - 1);
       Some (fx [+] lit 4 [.*] (xi [-] xp [*] xp) [*] (xi [-] xp [*] xp)))
    (Z.to_nat (Z.of_nat (length xs) - 1)) 1%Z
    ((x0 [-.] lit 1) [*] (x0 [-.] lit 1))) as (r & Hr & Hd).
  - apply dim_mul; by apply dim_sub_scalar.
  - intros j fx Hj Hfx.
    destruct (at_is_Some xs (S j)) as [xi Hi]; [lia |].
    destruct (at_is_Some xs j) as [xp Hp]; [lia |].
    replace (1 + Z.of_nat j)%Z with (Z.of_nat (S j)) by lia.
    rewrite Hi. simpl.
    replace (Z.of_nat (S j) - 1)%Z with (Z.of_nat j) by lia.
    rewrite Hp. simpl. eexists. split; [reflexivity |].
    pose proof (at_dim N xs _ xi Hxs Hi). pose proof (at_dim N xs _ xp Hxs Hp).
    assert (dim N (xi [-] xp [*] xp)) by (apply dim_sub; [| apply dim_mul]; done).
    apply dim_add; [done |]. apply dim_mul; [apply dim_scale |]; done.
  - exists r. split; [exact Hr | exact Hd].
Qed.

(** [powell_autodiff] reads [x[0]] to [x[3]]. *)
Lemma powell_autodiff_dim `{Elementary D} (N : nat) (xs : list (Jet D)) :
  Forall (dim N) xs -> 4 <= length xs ->
  exists r, powell_autodiff xs = Some r /\ dim N r.
Proof.
  intros Hxs Hlen.
  destruct (at_is_Some xs 0) as [x0 Ha0]; [lia |].
  destruct (at_is_Some xs 1) as [x1 Ha1]; [lia |].
  destruct (at_is_Some xs 2) as [x2 Ha2]; [lia |].
  destruct (at_is_Some xs 3) as [x3 Ha3]; [lia |].
  change (Z.of_nat 0) with 0%Z in Ha0. change (Z.of_nat 1) with 1%Z in Ha1.
  change (Z.of_nat 2) with 2%Z in Ha2. change (Z.of_nat 3) with 3%Z in Ha3.
  unfold powell_autodiff. rewrite Ha0. simpl. rewrite Ha1. simpl.
  rewrite Ha2. simpl. rewrite Ha3. simpl.
  eexists. split; [reflexivity |].
  pose proof (at_dim N xs _ x0 Hxs Ha0). pose proof (at_dim N xs _ x1 Hxs Ha1).
  pose proof (at_dim N xs _ x2 Hxs Ha2). pose proof (at_dim N xs _ x3 Hxs Ha3).
  repeat first [ assumption | apply dim_add | apply dim_mul | apply dim_sub
               | apply dim_scale | apply dim_pow ].
Qed.
End Dimension.

(* ================================================================== *)
(** * The objectives in closed form *)
(* ================================================================== *)

Section ObjectiveFacts.
Context {D T : Type} `{Arith D} `{Scalar D T}.
Local Open Scope scalar_scope.

(** The loop of [rosenbrock_autodiff] adds the terms in index order. *)
Lemma rosenbrock_autodiff_closed (x : list T) :
  rosenbrock_autodiff x = rosenbrock_closed x.
Proof.
  destruct x as [| x0 rest]; [reflexivity |].
  unfold rosenbrock_autodiff, rosenbrock_closed.
  change (at_ (x0 :: rest) 0) with (Some x0). simpl mbind.
  set (x := x0 :: rest). set (target := rosenbrock_sum x0 rest _).
  unfold for_.
  replace (Z.to_nat (Z.of_nat (S (length rest)) - 1)) with (length rest)
    by lia.
  destruct (for_range_inv
    (fun j fx => exists xj, x !! j = Some xj /\
                   rosenbrock_sum xj (drop (S j) x) fx = target)
    (fun i fx => xi ← at_ x i; xp ← at_ x (i - 1);
       Some (fx [+] lit 4 [.*] (xi [-] xp [*] xp) [*] (xi [-] xp [*] xp)))
    (length rest) 1%Z (sq (x0 [-.] lit 1))) as (r & Hr & xj & Hxj & Hsum).
  - exists x0. split; [reflexivity |]. unfold x. simpl. by rewrite drop_0.
  - intros j fx Hj (xj & Hxj & Hsum).
    destruct (lookup_lt_is_Some_2 x (S j)) as [xi Hxi];
      [unfold x; simpl; lia |].
    replace (1 + Z.of_nat j)%Z with (Z.of_nat (S j)) by lia.
    rewrite at_of_nat, Hxi. simpl mbind.
    replace (Z.of_nat (S j) - 1)%Z with (Z.of_nat j) by lia.
    rewrite at_of_nat, Hxj. simpl mbind.
    eexists. split; [reflexivity |].
    exists xi. split; [done |].
    rewrite <- Hsum, (drop_S _ _ _ Hxi). reflexivity.
  - transitivity (Some r); [exact Hr |]. f_equal.
    rewrite <- Hsum, drop_ge by (unfold x; simpl; lia). reflexivity.
Qed.

End ObjectiveFacts.

(** The value of a dual-number evaluation is the plain evaluation at the
    values. *)
Section Values.
Context {D : Type} `{Arith D}.
Local Open Scope scalar_scope.

Lemma at_fmap {A B} (f : A -> B) (xs : list A) (i : Z) :
  at_ (f <$> xs) i = f <$> at_ xs i.
Proof. unfold at_. case_decide; [apply list_lookup_fmap | done]. Qed.

Lemma simple_quad_value (xs : list (Jet D)) :
  simple_quad (ceres.a <$> xs) = ceres.a <$> simple_quad xs.
Proof.
  unfold simple_quad. rewrite at_fmap. by destruct (at_ xs 0).
Qed.

Lemma rosenbrock_sum_value (prev : Jet D) (rest : list (Jet D)) (acc : Jet D) :
  rosenbrock_sum (ceres.a prev) (ceres.a <$> rest) (ceres.a acc)
  = ceres.a (rosenbrock_sum prev rest acc).
Proof.
  revert prev acc. induction rest as [| xi rest IH]; intros prev acc;
    [reflexivity |].
  simpl. rewrite <- IH. reflexivity.
Qed.

Lemma rosenbrock_autodiff_value (xs : list (Jet D)) :
  rosenbrock_autodiff (ceres.a <$> xs) = ceres.a <$> rosenbrock_autodiff xs.
Proof.
  rewrite !rosenbrock_autodiff_closed. destruct xs as [| x0 rest];
    [reflexivity |].
  change (Some (rosenbrock_sum (ceres.a x0) (ceres.a <$> rest)
                  (ceres.a (sq (x0 [-.] lit 1))))
          = Some (ceres.a (rosenbrock_sum x0 rest (sq (x0 [-.] lit 1))))).
  f_equal. apply rosenbrock_sum_value.
Qed.

Lemma powell_autodiff_value `{Elementary D} (xs : list (Jet D)) :
  powell_autodiff (ceres.a <$> xs) = ceres.a <$> powell_autodiff xs.
Proof.
  unfold powell_autodiff. rewrite !at_fmap.
  destruct (at_ xs 0), (at_ xs 1), (at_ xs 2), (at_ xs 3); reflexivity.
Qed.

Lemma loss_of_value `{Elementary D} (xs ys : list D) (m c : Jet D) :
  ceres.a (loss_of ExpFit.JetT xs ys m c)
  = loss_of (T := D) (fun d => d) xs ys (ceres.a m) (ceres.a c).
Proof.
  unfold loss_of.
  assert (Hgen : forall (obs : list (D * D)) (acc : Jet D),
    ceres.a (foldl (loss_step ExpFit.JetT m c) acc obs)
    = foldl (loss_step (T := D) (fun d => d) (ceres.a m) (ceres.a c)) (ceres.a acc) obs).
  { induction obs as [| o obs IH]; intros acc; [reflexivity |].
    simpl. rewrite IH. reflexivity. }
  apply Hgen.
Qed.

Lemma loss_of_dim `{Elementary D} (xs ys : list D) (m c : Jet D) :
  dim 2 m -> dim 2 c -> dim 2 (loss_of ExpFit.JetT xs ys m c).
Proof.
  intros Hm Hc. unfold loss_of.
  assert (Hgen : forall (obs : list (D * D)) (acc : Jet D),
    dim 2 acc -> dim 2 (foldl (loss_step ExpFit.JetT m c) acc obs)).
  { induction obs as [| o obs IH]; intros acc Hacc; [exact Hacc |].
    simpl. apply IH. unfold loss_step, sq, exp_model.
    assert (dim 2 (t_exp (m [*] ExpFit.JetT o.1 [+] c) [-.] o.2)).
    { apply dim_sub_scalar, dim_exp, dim_add; [| done].
      apply dim_mul; [done | apply dim_Jet_of]. }
    apply dim_add; [done |]. by apply dim_mul. }
  apply Hgen, dim_Jet_of.
Qed.
End Values.

Section ExpFitFacts.
Context {D : Type} `{Arith D} `{Elementary D}.
Local Open Scope scalar_scope.

(** The loop over the observations adds the squared residuals in order. *)
Lemma loss_loop (m c : Jet D) (s : state (ExpFit.t D) D) :
  length (ExpFit.x_data (this s)) <= length (ExpFit.y_data (this s)) ->
  for_M 0 (Z.of_nat (length (ExpFit.x_data (this s))))
    (ExpFit.loss_step m c) (ExpFit.JetT (lit 0)) s
  = Some (loss_of ExpFit.JetT (ExpFit.x_data (this s))
            (ExpFit.y_data (this s)) m c, s).
Proof.
  intros Hlen. set (xs := ExpFit.x_data (this s)) in *.
  set (ys := ExpFit.y_data (this s)) in *.
  destruct (for_M_inv
    (fun j loss s' => s' = s /\
       loss = foldl (loss_step ExpFit.JetT m c) (ExpFit.JetT (lit 0))
                (take j (zip xs ys)))
    (ExpFit.loss_step m c) (length xs) (ExpFit.JetT (lit 0)) s)
    as (loss & s' & Hrun & -> & ->).
  - split; [done |]. by rewrite take_0.
  - intros j loss s1 Hj [-> ->].
    destruct (lookup_lt_is_Some_2 xs j) as [xj Hxj]; [lia |].
    destruct (lookup_lt_is_Some_2 ys j) as [yj Hyj]; [lia |].
    assert (Hzip : zip xs ys !! j = Some (xj, yj)).
    { apply lookup_zip_with_Some. by exists xj, yj. }
    eexists _, s. split.
    + unfold ExpFit.loss_step.
      rewrite (bind_Some _ _ s s xj).
      2:{ rewrite (bind_Some _ _ s s xs) by reflexivity.
          apply lift_Some. by rewrite at_of_nat. }
      rewrite (bind_Some _ _ s s yj).
      2:{ rewrite (bind_Some _ _ s s ys) by reflexivity.
          apply lift_Some. by rewrite at_of_nat. }
      reflexivity.
    + split; [done |].
      rewrite (take_S_r _ _ _ Hzip), foldl_snoc. reflexivity.
  - rewrite Hrun. f_equal. f_equal. unfold loss_of.
    rewrite take_ge; [done |]. rewrite length_zip. lia.
Qed.

(** What one call of [ExpFitAutoDiff::operator()] does. *)
Lemma ExpFit_call_spec (pparams pgrad : addr) (s : state (ExpFit.t D) D)
    (p g : list D) (p0 p1 : D) :
  let L := loss_of ExpFit.JetT (ExpFit.x_data (this s))
             (ExpFit.y_data (this s))
             (ExpFit.m_seed p0) (ExpFit.c_seed p1) in
  heap s !! pparams = Some p -> p !! 0 = Some p0 -> p !! 1 = Some p1 ->
  heap s !! pgrad = Some g -> 2 <= length g ->
  length (ExpFit.x_data (this s)) <= length (ExpFit.y_data (this s)) ->
  ExpFit.call pparams pgrad s
  = Some (ceres.a L, graded s pgrad 2 (ceres.v L) g).
Proof.
  intros L Hpp Hp0 Hp1 Hpg Hg Hdata.
  assert (HL : dim 2 L) by (by apply loss_of_dim).
  destruct (lookup_lt_is_Some_2 (ceres.v L) 0) as [g0 Hg0];
    [unfold dim in HL; lia |].
  destruct (lookup_lt_is_Some_2 (ceres.v L) 1) as [g1 Hg1];
    [unfold dim in HL; lia |].
  unfold ExpFit.call.
  rewrite (bind_Some _ _ s s p0).
  2:{ unfold read. rewrite Hpp. simpl. change (at_ p 0) with (p !! 0). by rewrite Hp0. }
  rewrite (bind_Some _ _ s s p1).
  2:{ unfold read. rewrite Hpp. simpl. change (at_ p 1) with (p !! 1). by rewrite Hp1. }
  rewrite (bind_Some _ _ s s (Z.of_nat (length (ExpFit.x_data (this s)))))
    by reflexivity.
  rewrite (bind_Some _ _ _ _ _ (loss_loop _ _ s Hdata)). fold L.
  rewrite (bind_Some _ _ s s g0)
    by (apply lift_Some; exact Hg0).
  rewrite <- (graded_0 s pgrad (ceres.v L) g Hpg) at 1.
  rewrite (bind_Some _ _ _ _ _
             (write_graded s pgrad 0 (ceres.v L) g g0 Hg0 ltac:(lia))).
  rewrite (bind_Some _ _ _ (graded s pgrad 1 (ceres.v L) g) g1)
    by (apply lift_Some; exact Hg1).
  rewrite (bind_Some _ _ _ _ _
             (write_graded s pgrad 1 (ceres.v L) g g1 Hg1 ltac:(lia))).
  reflexivity.
Qed.
End ExpFitFacts.

(* ================================================================== *)
(** * The real-number reading *)
(* ================================================================== *)

Section RealFacts.
Local Open Scope R_scope.

Lemma lit_R_Z (z : Z) : lit (inject_Z z) = IZR z.
Proof. simpl. unfold Q2R. simpl. lra. Qed.

Lemma lit_R_0 : lit 0%Q = 0.
Proof. exact (lit_R_Z 0). Qed.
Lemma lit_R_1 : lit 1%Q = 1.
Proof. exact (lit_R_Z 1). Qed.

(** The left-to-right sum of [rosenbrock_sum] is the sum of the terms
    [4 (x[i] - x[i-1]^2)^2]. *)
Lemma Rsum_cons (r : R) (l : list R) : Rsum (r :: l) = r + Rsum l.
Proof. reflexivity. Qed.

(** The left-to-right sum of [rosenbrock_sum] is the sum of the terms
    [4 (x[i] - x[i-1]^2)^2]. *)
Lemma rosenbrock_sum_R (x : list R) (j : nat) (prev : R) (rest : list R)
    (acc : R) :
  x !! j = Some prev -> drop (S j) x = rest ->
  rosenbrock_sum prev rest acc
  = acc + Rsum ((fun i => 4 * (nth i x 0 - nth (i - 1) x 0 ^ 2) ^ 2)
                  <$> seq (S j) (length rest)).
Proof.
  set (term := fun i : nat => 4 * (nth i x 0 - nth (i - 1) x 0 ^ 2) ^ 2).
  revert j prev acc. induction rest as [| xi rest IH]; intros j prev acc Hj Hd.
  - simpl. unfold Rsum. simpl. lra.
  - assert (Hxi : x !! S j = Some xi).
    { rewrite <- (Nat.add_0_r (S j)), <- lookup_drop, Hd. reflexivity. }
    simpl rosenbrock_sum.
    rewrite (IH (S j) xi); [| exact Hxi |].
    2:{ rewrite <- (Nat.add_1_r (S j)), <- drop_drop, Hd. reflexivity. }
    simpl length. simpl seq. rewrite fmap_cons, Rsum_cons.
    set (tail := Rsum _).
    assert (Hterm : term (S j) = 4 * (xi - prev ^ 2) ^ 2).
    { unfold term. replace (S j - 1)%nat with j by lia.
      by rewrite (nth_lookup_Some _ _ 0 _ Hxi), (nth_lookup_Some _ _ 0 _ Hj). }
    rewrite Hterm. unfold sq. simpl. unfold Q2R. simpl. lra.
Qed.

Lemma rosenbrock_closed_R (x : list R) :
  (1 <= length x)%nat -> rosenbrock_closed x = Some (rosenbrock_R x).
Proof.
  destruct x as [| x0 rest]; [simpl; lia |]. intros _.
  unfold rosenbrock_closed. f_equal.
  rewrite (rosenbrock_sum_R (x0 :: rest) 0 x0 rest) by done.
  unfold rosenbrock_R.
  replace (length (x0 :: rest) - 1)%nat with (length rest) by (simpl; lia).
  set (tail := Rsum _).
  unfold sq. simpl. unfold Q2R. simpl. lra.
Qed.

(** The left-to-right loss is the sum of the squared residuals. *)
Lemma loss_of_R (xs ys : list R) (m c : R) :
  loss_of (T := R) (fun d => d) xs ys m c = exp_loss xs ys m c.
Proof.
  unfold loss_of, exp_loss.
  assert (Hgen : forall (xs ys : list R) (acc : R),
    foldl (loss_step (T := R) (fun d => d) m c) acc (zip xs ys)
    = acc + Rsum (zip_with (fun x y => (exp (m * x + c) - y) ^ 2) xs ys)).
  { clear xs ys. induction xs as [| x xs IH]; intros ys acc.
    - simpl. unfold Rsum. simpl. lra.
    - destruct ys as [| y ys]; [simpl; unfold Rsum; simpl; lra |].
      simpl zip_with. rewrite Rsum_cons.
      change (zip (x :: xs) (y :: ys)) with ((x, y) :: zip xs ys).
      simpl foldl. rewrite IH. set (tail := Rsum _).
      unfold loss_step, sq, exp_model. simpl. lra. }
  rewrite Hgen. set (tail := Rsum _). simpl. unfold Q2R. simpl. lra.
Qed.

(** ** Dual numbers track derivatives *)

Lemma derivable_pt_lim_eq (F : R -> R) (t d d' : R) :
  derivable_pt_lim F t d -> d = d' -> derivable_pt_lim F t d'.
Proof. by intros Hd <-. Qed.

Lemma tracks_const (k N : nat) (value t : R) :
  (k < N)%nat -> tracks k (fun _ => value) t (ceres.Jet_of N value).
Proof.
  intros Hk. split; [reflexivity |]. exists 0. split.
  - simpl. rewrite lookup_replicate_2 by done. f_equal. exact lit_R_0.
  - apply derivable_pt_lim_const.
Qed.

Lemma tracks_add (k : nat) (F G : R -> R) (t : R) (f g : Jet R) :
  tracks k F t f -> tracks k G t g ->
  tracks k (fun s => F s + G s) t (t_add f g).
Proof.
  intros [Hf (df & Hdf & HF)] [Hg (dg & Hdg & HG)]. split.
  - simpl. by rewrite Hf, Hg.
  - exists (df + dg). split.
    + simpl. unfold ceres.vadd. rewrite lookup_zip_with, Hdf. simpl.
      by rewrite Hdg.
    + exact (derivable_pt_lim_plus F G t df dg HF HG).
Qed.

Lemma tracks_mul (k : nat) (F G : R -> R) (t : R) (f g : Jet R) :
  tracks k F t f -> tracks k G t g ->
  tracks k (fun s => F s * G s) t (t_mul f g).
Proof.
  intros [Hf (df & Hdf & HF)] [Hg (dg & Hdg & HG)]. split.
  - simpl. by rewrite Hf, Hg.
  - exists (ceres.a f * dg + df * ceres.a g). split.
    + simpl. unfold ceres.vadd, ceres.vscale, ceres.vscale_r.
      rewrite lookup_zip_with, !list_lookup_fmap, Hdf, Hdg. reflexivity.
    + apply (derivable_pt_lim_eq _ _ _ _
               (derivable_pt_lim_mult F G t df dg HF HG)).
      rewrite Hf, Hg. lra.
Qed.

Lemma tracks_sub_scalar (k : nat) (F : R -> R) (t s : R) (f : Jet R) :
  tracks k F t f -> tracks k (fun u => F u - s) t (t_sub_s f s).
Proof.
  intros [Hf (df & Hdf & HF)]. split.
  - simpl. by rewrite Hf.
  - exists df. split; [exact Hdf |].
    apply (derivable_pt_lim_eq _ _ (df - 0)); [| lra].
    exact (derivable_pt_lim_minus F (fun _ => s) t df 0 HF
             (derivable_pt_lim_const s t)).
Qed.

Lemma tracks_exp (k : nat) (F : R -> R) (t : R) (f : Jet R) :
  tracks k F t f -> tracks k (fun u => exp (F u)) t (t_exp f).
Proof.
  intros [Hf (df & Hdf & HF)]. split.
  - simpl. by rewrite Hf.
  - exists (exp (ceres.a f) * df). split.
    + simpl. unfold ceres.vscale. by rewrite list_lookup_fmap, Hdf.
    + rewrite Hf.
      exact (derivable_pt_lim_comp F exp t df (exp (F t)) HF
               (derivable_pt_lim_exp (F t))).
Qed.

(** The loss as a dual number tracks the loss as a function of whatever
    variable [m] and [c] track. *)
Lemma loss_of_tracks (k : nat) (Fm Fc : R -> R) (t : R) (m c : Jet R)
    (xs ys : list R) :
  (k < 2)%nat -> tracks k Fm t m -> tracks k Fc t c ->
  tracks k (fun s => loss_of (T := R) (fun d => d) xs ys (Fm s) (Fc s)) t
    (loss_of ExpFit.JetT xs ys m c).
Proof.
  intros Hk Hm Hc. unfold loss_of.
  assert (Hgen : forall (obs : list (R * R)) (Facc : R -> R) (acc : Jet R),
    tracks k Facc t acc ->
    tracks k (fun s => foldl (loss_step (T := R) (fun d => d) (Fm s) (Fc s))
                         (Facc s) obs) t
      (foldl (loss_step ExpFit.JetT m c) acc obs)).
  { induction obs as [| o obs IH]; intros Facc acc Hacc; [exact Hacc |].
    assert (Hres : tracks k (fun s => exp (Fm s * o.1 + Fc s) - o.2) t
                     (t_sub_s (t_exp (t_add (t_mul m (ExpFit.JetT o.1)) c))
                        o.2)).
    { apply tracks_sub_scalar, (tracks_exp k (fun s => Fm s * o.1 + Fc s)).
      apply (tracks_add k (fun s => Fm s * o.1) Fc); [| exact Hc].
      apply (tracks_mul k Fm (fun _ => o.1)); [exact Hm |].
      by apply tracks_const. }
    assert (Hstep : tracks k
              (fun s => loss_step (T := R) (fun d => d) (Fm s) (Fc s)
                          (Facc s) o) t
              (loss_step ExpFit.JetT m c acc o)).
    { apply (tracks_add k Facc
               (fun s => (exp (Fm s * o.1 + Fc s) - o.2)
                         * (exp (Fm s * o.1 + Fc s) - o.2))); [exact Hacc |].
      by apply (tracks_mul k (fun s => exp (Fm s * o.1 + Fc s) - o.2)
                  (fun s => exp (Fm s * o.1 + Fc s) - o.2)). }
    exact (IH _ _ Hstep). }
  apply (Hgen (zip xs ys) (fun _ => lit 0%Q) (ExpFit.JetT (lit 0%Q))).
  by apply tracks_const.
Qed.

(** The seeds of [m] and [c]. *)
Lemma tracks_seed_m (m c : R) :
  tracks 0 (fun s => s) m (ExpFit.m_seed m) /\
  tracks 0 (fun _ => c) m (ExpFit.c_seed c).
Proof.
  split; (split; [reflexivity |]).
  - exists 1. split; [simpl; f_equal; exact lit_R_1 |].
    apply derivable_pt_lim_id.
  - exists 0. split; [simpl; f_equal; exact lit_R_0 |].
    apply derivable_pt_lim_const.
Qed.

Lemma tracks_seed_c (m c : R) :
  tracks 1 (fun _ => m) c (ExpFit.m_seed m) /\
  tracks 1 (fun s => s) c (ExpFit.c_seed c).
Proof.
  split; (split; [reflexivity |]).
  - exists 0. split; [simpl; f_equal; exact lit_R_0 |].
    apply derivable_pt_lim_const.
  - exists 1. split; [simpl; f_equal; exact lit_R_1 |].
    apply derivable_pt_lim_id.
Qed.

(** The gradient of the loss: the derivative part of the loss evaluated
    on the seeds holds the two partial derivatives of [exp_loss]. *)
Lemma loss_gradient (xs ys : list R) (m c : R) :
  exists g0 g1,
    ceres.v (loss_of ExpFit.JetT xs ys (ExpFit.m_seed m)
               (ExpFit.c_seed c)) = [g0; g1] /\
    derivable_pt_lim (fun s => exp_loss xs ys s c) m g0 /\
    derivable_pt_lim (fun s => exp_loss xs ys m s) c g1.
Proof.
  set (L := loss_of _ _ _ _ _).
  destruct (tracks_seed_m m c) as [Hm0 Hc0].
  destruct (tracks_seed_c m c) as [Hm1 Hc1].
  destruct (loss_of_tracks 0 _ _ m _ _ xs ys ltac:(lia) Hm0 Hc0)
    as [_ (g0 & Hg0 & HD0)].
  destruct (loss_of_tracks 1 _ _ c _ _ xs ys ltac:(lia) Hm1 Hc1)
    as [_ (g1 & Hg1 & HD1)].
  fold L in Hg0, Hg1.
  assert (HL : dim 2 L) by (apply loss_of_dim; reflexivity).
  exists g0, g1. split; [| split].
  - unfold dim in HL. destruct (ceres.v L) as [| e0 [| e1 [| e2 l]]];
      simpl in HL; try lia.
    simpl in Hg0, Hg1. congruence.
  - apply (derivable_pt_lim_ext _ _ _ _ (fun s => loss_of_R xs ys s c)), HD0.
  - apply (derivable_pt_lim_ext _ _ _ _ (fun s => loss_of_R xs ys m s)), HD1.
Qed.
End RealFacts.

Section CallTwice.
Context {D : Type} `{Arith D}.

Lemma overwrite_idem (N : nat) (gs g : list D) :
  N <= length gs -> overwrite N gs (overwrite N gs g) = overwrite N gs g.
Proof.
  intros HN. unfold overwrite. f_equal.
  rewrite drop_app_length'; [done |]. rewrite length_take. lia.
Qed.

Lemma graded_twice {Obj} (s : state Obj D) (pgrad : addr) (N : nat)
    (gs g : list D) :
  N <= length gs ->
  heap (graded (graded s pgrad N gs g) pgrad N gs (overwrite N gs g))
  = heap (graded s pgrad N gs g).
Proof.
  intros HN. simpl. by rewrite insert_insert_eq, overwrite_idem.
Qed.

(** Two calls in a row, for any objective. *)
Lemma Wrapper_call_twice (objective : list (Jet D) -> option (Jet D))
    (px pgrad : addr) (s : state Wrapper.t D) (x g : list D) (r : Jet D) :
  let N := Z.to_nat (Wrapper.n (this s)) in
  px <> pgrad -> (0 <= Wrapper.n (this s))%Z ->
  heap s !! px = Some x -> heap s !! pgrad = Some g ->
  N <= length x -> N <= length g ->
  objective (seed x N) = Some r -> dim N r ->
  exists s1 s2,
    Wrapper.call objective px pgrad s = Some (ceres.a r, s1) /\
    Wrapper.call objective px pgrad s1 = Some (ceres.a r, s2) /\
    heap s1 !! px = Some x /\ heap s2 = heap s1.
Proof.
  intros N Hne Hn Hpx Hpg Hx Hg Hobj Hr. unfold dim in Hr.
  set (s1 := graded s pgrad N (ceres.v r) g).
  exists s1, (graded s1 pgrad N (ceres.v r) (overwrite N (ceres.v r) g)).
  assert (Hpx1 : heap s1 !! px = Some x).
  { simpl. by rewrite lookup_insert_ne. }
  split; [| split; [| split]].
  - apply (Wrapper_call_spec objective px pgrad s x g r);
      (done || (unfold N in *; lia)).
  - apply (Wrapper_call_spec objective px pgrad s1 x); try done;
      try (unfold N in *; simpl; lia).
    + simpl. apply lookup_insert_eq.
    + rewrite overwrite_length; unfold N in *; simpl; lia.
  - exact Hpx1.
  - apply graded_twice. lia.
Qed.

Lemma ExpFit_call_twice `{Elementary D} (pparams pgrad : addr)
    (s : state (ExpFit.t D) D) (p g : list D) (p0 p1 : D) :
  let L := loss_of ExpFit.JetT (ExpFit.x_data (this s))
             (ExpFit.y_data (this s))
             (ExpFit.m_seed p0) (ExpFit.c_seed p1) in
  pparams <> pgrad ->
  heap s !! pparams = Some p -> p !! 0 = Some p0 -> p !! 1 = Some p1 ->
  heap s !! pgrad = Some g -> 2 <= length g ->
  length (ExpFit.x_data (this s)) <= length (ExpFit.y_data (this s)) ->
  exists s1 s2,
    ExpFit.call pparams pgrad s = Some (ceres.a L, s1) /\
    ExpFit.call pparams pgrad s1 = Some (ceres.a L, s2) /\
    heap s1 !! pparams = Some p /\ heap s2 = heap s1.
Proof.
  intros L Hne Hpp Hp0 Hp1 Hpg Hg Hdata.
  assert (HL : dim 2 L) by (by apply loss_of_dim). unfold dim in HL.
  set (s1 := graded s pgrad 2 (ceres.v L) g).
  exists s1, (graded s1 pgrad 2 (ceres.v L) (overwrite 2 (ceres.v L) g)).
  assert (Hpp1 : heap s1 !! pparams = Some p).
  { simpl. by rewrite lookup_insert_ne. }
  split; [| split; [| split]].
  - by apply (ExpFit_call_spec pparams pgrad s p g p0 p1).
  - apply (ExpFit_call_spec pparams pgrad s1 p _ p0 p1); try done.
    + simpl. apply lookup_insert_eq.
    + rewrite overwrite_length; lia.
  - exact Hpp1.
  - apply graded_twice. lia.
Qed.
End CallTwice.

Section Frame.
Context {D : Type} `{Arith D}.

Lemma assignments_target (pgrad : addr) (N : nat) (w : addr * Z) :
  w ∈ assignments pgrad N -> w.1 = pgrad.
Proof.
  unfold assignments. intros Hw.
  apply list_elem_of_fmap in Hw as (k & -> & _). reflexivity.
Qed.

(** What a state [graded] from [s] shares with [s]. *)
Lemma graded_frame {Obj} (s : state Obj D) (pgrad : addr) (N : nat)
    (gs g : list D) :
  this (graded s pgrad N gs g) = this s /\
  (forall q, q <> pgrad -> heap (graded s pgrad N gs g) !! q = heap s !! q) /\
  heap (graded s pgrad N gs g) !! pgrad = Some (overwrite N gs g) /\
  written (graded s pgrad N gs g) = written s ++ assignments pgrad N.
Proof.
  split; [reflexivity |]. split; [| split; [| reflexivity]].
  - intros q Hq. simpl. by rewrite lookup_insert_ne.
  - simpl. apply lookup_insert_eq.
Qed.

(** The objectives at the seeds. *)
Lemma simple_quad_seed (x : list D) (N : nat) :
  1 <= N -> N <= length x ->
  exists r, simple_quad (seed x N) = Some r /\ dim N r.
Proof.
  intros HN Hx. apply simple_quad_dim; [apply seed_dim |].
  rewrite seed_length; lia.
Qed.

Lemma rosenbrock_autodiff_seed (x : list D) (N : nat) :
  1 <= N -> N <= length x ->
  exists r, rosenbrock_autodiff (seed x N) = Some r /\ dim N r.
Proof.
  intros HN Hx. apply rosenbrock_autodiff_dim; [apply seed_dim |].
  rewrite seed_length; lia.
Qed.

(** A successful call of a dynamic adapter, in one statement. *)
Lemma Wrapper_call_returns (objective : list (Jet D) -> option (Jet D))
    (px pgrad : addr) (s : state Wrapper.t D) (x g : list D) :
  let N := Z.to_nat (Wrapper.n (this s)) in
  (0 <= Wrapper.n (this s))%Z ->
  heap s !! px = Some x -> heap s !! pgrad = Some g ->
  N <= length x -> N <= length g ->
  (exists r, objective (seed x N) = Some r /\ dim N r) ->
  exists r, objective (seed x N) = Some r /\ dim N r /\
    Wrapper.call objective px pgrad s
    = Some (ceres.a r, graded s pgrad N (ceres.v r) g).
Proof.
  intros N Hn Hpx Hpg Hx Hg (r & Hobj & Hr). exists r.
  split; [exact Hobj |]. split; [exact Hr |]. unfold dim in Hr.
  apply (Wrapper_call_spec objective px pgrad s x g r);
    (done || (unfold N in *; lia)).
Qed.
End Frame.

Section Extract.
Context {D : Type} `{Arith D}.

(** The extraction loop of [main] splits the table into the 67 abscissae
    and the 67 ordinates. *)
Lemma extract_observations :
  exists xs ys : list D,
    exponential.extract = Some (xs, ys) /\ length xs = 67 /\ length ys = 67.
Proof.
  eexists _, _. split; [vm_compute; reflexivity |]. split; reflexivity.
Qed.
End Extract.

(* ================================================================== *)
(** * The chain rule of the dual-number arithmetic *)
(* ================================================================== *)

Section ChainRule.
Local Open Scope R_scope.








End ChainRule.

Section Gradients.
Local Open Scope R_scope.

Lemma tracks_sub (k : nat) (F G : R -> R) (t : R) (f g : Jet R) :
  tracks k F t f -> tracks k G t g ->
  tracks k (fun s => F s - G s) t (t_sub f g).
Proof.
  intros [Hf (df & Hdf & HF)] [Hg (dg & Hdg & HG)]. split.
  - simpl. by rewrite Hf, Hg.
  - exists (df - dg). split.
    + simpl. unfold ceres.vsub. rewrite lookup_zip_with, Hdf. simpl.
      by rewrite Hdg.
    + exact (derivable_pt_lim_minus F G t df dg HF HG).
Qed.

Lemma tracks_scale (k : nat) (F : R -> R) (t s : R) (f : Jet R) :
  tracks k F t f -> tracks k (fun u => s * F u) t (s_mul s f).
Proof.
  intros [Hf (df & Hdf & HF)]. split.
  - simpl. by rewrite Hf.
  - exists (s * df). split.
    + simpl. unfold ceres.vscale. by rewrite list_lookup_fmap, Hdf.
    + exact (derivable_pt_lim_scal F s t df HF).
Qed.



(** The seed of the variable of differentiation, and of another one. *)
Lemma tracks_variable (k N : nat) (x : R) :
  (k < N)%nat -> tracks k (fun t => t) x (mkJet x (basis N k)).
Proof.
  intros Hk. split; [reflexivity |]. exists 1. split.
  - simpl. rewrite basis_lookup by done. rewrite decide_True by done.
    f_equal. exact lit_R_1.
  - apply derivable_pt_lim_id.
Qed.

Lemma tracks_parameter (k i N : nat) (x t : R) :
  (k < N)%nat -> i <> k -> tracks k (fun _ => x) t (mkJet x (basis N i)).
Proof.
  intros Hk Hik. split; [reflexivity |]. exists 0. split.
  - simpl. rewrite basis_lookup by done. rewrite decide_False by done.
    f_equal. exact lit_R_0.
  - apply derivable_pt_lim_const.
Qed.



End Gradients.

(* ================================================================== *)
(** * What a call hands to the objective, and when it returns *)
(* ================================================================== *)

Section SeedsOfACall.
Context {D : Type} `{Arith D}.

(** A call whose objective has no value on the seeded dual numbers
    faults. *)
Lemma Wrapper_call_None (objective : list (Jet D) -> option (Jet D))
    (px pgrad : addr) (s : state Wrapper.t D) (x : list D) :
  let N := Z.to_nat (Wrapper.n (this s)) in
  (0 <= Wrapper.n (this s))%Z ->
  heap s !! px = Some x -> N <= length x ->
  objective (seed x N) = None ->
  Wrapper.call objective px pgrad s = None.
Proof.
  intros N Hn Hpx Hx Hobj.
  assert (Hsize : Wrapper.n (this s) = Z.of_nat N) by (unfold N; lia).
  unfold Wrapper.call.
  rewrite (bind_Some _ _ s s (Z.of_nat N)) by (unfold member; by rewrite Hsize).
  rewrite (bind_Some _ _ s s (replicate N ceres.Jet_default)).
  2:{ apply lift_Some. unfold Wrapper.new_jets.
      rewrite decide_True by lia. by rewrite Nat2Z.id. }
  rewrite (bind_Some _ _ _ _ _ (seeding_loop px x N s Hpx Hx)).
  unfold bind, lift. by rewrite Hobj.
Qed.
End SeedsOfACall.

Section Assigns.
Context {D : Type} `{Arith D}.

End Assigns.

(* ================================================================== *)
(** * Division and power away from where they are differentiable *)
(* ================================================================== *)

Section PowerAtPositiveBase.
Local Open Scope R_scope.



End PowerAtPositiveBase.

(* ================================================================== *)
(** * Concrete evaluations *)
(* ================================================================== *)

(** IEEE binary64: the quadratic adapter at [x = 0] returns
    [0.5 * 10 * 10 = 50] and the gradient [-10]. *)
Example SimpleQuadAutoDiff_at_0 :
  exists s',
    SimpleQuadAutoDiff_call 1%positive 2%positive
      (mkState (Wrapper.mk 1)
         {[ 1%positive := [0%float]; 2%positive := [0%float] ]} [])
    = Some (50%float, s') /\
    heap s' !! 2%positive = Some [(-10)%float] /\
    written s' = [(2%positive, 0%Z)].
Proof. eexists. repeat split; vm_compute; reflexivity. Qed.

(** IEEE binary64: the Rosenbrock adapter at [(3, 4)] returns
    [(3-1)^2 + 4 (4 - 3^2)^2 = 104] and the gradient [(244, -40)]. *)
Example RosenbrockAutoDiff_at_3_4 :
  exists s',
    RosenbrockAutoDiff_call 1%positive 2%positive
      (mkState (Wrapper.mk 2)
         {[ 1%positive := [3; 4]%float; 2%positive := [0; 0]%float ]} [])
    = Some (104%float, s') /\
    heap s' !! 2%positive = Some [244; -40]%float.
Proof. eexists. split; vm_compute; reflexivity. Qed.

(** The seeds of a two-component vector. *)
Example seed_3_4 :
  seed [3; 4]%float 2 = [mkJet 3%float [1; 0]%float; mkJet 4%float [0; 1]%float].
Proof. vm_compute. reflexivity. Qed.

(** When [x] and [grad] are the same vector, the call writes the gradient
    over [x]: the statements about an unchanged [x] below assume two
    distinct vectors, as the solver passes them. *)
Example SimpleQuadAutoDiff_aliased :
  exists s',
    SimpleQuadAutoDiff_call 1%positive 1%positive
      (mkState (Wrapper.mk 1) {[ 1%positive := [0%float] ]} [])
    = Some (50%float, s') /\
    heap s' !! 1%positive = Some [(-10)%float].
Proof. eexists. split; vm_compute; reflexivity. Qed.

(** IEEE binary64 with any C library whose [exp] maps NaN to NaN: the
    exponential adapter called at [(NaN, 0)] returns NaN as its value,
    as a normal result. *)
Lemma ExpFitAutoDiff_nan_returned (ED : Elementary float) :
  sexp nan = nan ->
  exists s',
    ExpFit.call 1%positive 2%positive
      (mkState (ExpFit.mk [1%float] [2%float])
         {[ 1%positive := [nan; 0%float]; 2%positive := [0; 0]%float ]} [])
    = Some (nan, s').
Proof.
  intros Hnan.
  pose proof (ExpFit_call_spec (D := float) 1%positive 2%positive
    (mkState (ExpFit.mk [1%float] [2%float])
       {[ 1%positive := [nan; 0%float]; 2%positive := [0; 0]%float ]} [])
    [nan; 0%float] [0; 0]%float nan 0%float) as Hcall.
  simpl in Hcall. eexists. etransitivity.
  - apply Hcall; (reflexivity || lia).
  - f_equal. f_equal. unfold loss_of, loss_step, sq, exp_model. simpl.
    vm_compute in Hnan. vm_compute. rewrite Hnan. reflexivity.
Qed.

(** The decimal literal [0.5] as a double. *)
Example float_lit_half : lit 0.5%Q = 0.5%float.
Proof. vm_compute. reflexivity. Qed.

(* ================================================================== *)
(** * The claims of the specification *)
(* ================================================================== *)

(** C1, as stated, fails on the doubles of the program.  With the 67
    observations of [main] and any C library whose [exp] overflows at 1000
    (every binary64 [exp] does: [e^1000] exceeds the largest double), the
    exponential adapter called at the finite parameters [(0, 1000)] returns
    [+infinity], which is not the sum of the squared residuals, and leaves
    the gradient [(NaN, +infinity)], which is not a pair of partial
    derivatives: the first observation has [x_0 = 0], and [exp(1000) * 0]
    is [infinity * 0]. *)
Lemma exponential_gradient_nan_counterexample :
  exists xs ys : list float,
    exponential.extract = Some (xs, ys) /\
    forall ED : Elementary float,
      sexp 1000%float = infinity ->
      exists s',
        ExpFit.call 1%positive 2%positive
          (mkState (ExpFit.mk xs ys)
             {[ 1%positive := [0; 1000]%float; 2%positive := [0; 0]%float ]}
             [])
        = Some (infinity, s') /\
        heap s' !! 2%positive = Some [nan; infinity].
Proof.
  eexists _, _. split; [vm_compute; reflexivity |].
  intros ED Hexp.
  match goal with
  | |- exists s', ExpFit.call _ _ ?s = _ /\ _ =>
      pose proof (ExpFit_call_spec (D := float) 1%positive 2%positive s
                    [0; 1000]%float [0; 0]%float 0%float 1000%float) as Hcall
  end.
  simpl in Hcall.
  specialize (Hcall eq_refl eq_refl eq_refl eq_refl ltac:(lia) ltac:(lia)).
  eexists. split.
  - etransitivity; [exact Hcall |]. f_equal. f_equal.
    vm_compute. vm_compute in Hexp. rewrite !Hexp. vm_compute. reflexivity.
  - simpl. rewrite lookup_insert_eq. f_equal.
    vm_compute. vm_compute in Hexp. rewrite !Hexp. vm_compute. reflexivity.
Qed.

(** C1 (amended).  (1) In a call of a dynamic adapter on a vector [x]
    with [n] components, where the objective evaluated once on the seeded
    dual numbers [seed x n] yields [r], the call returns [r]'s value and
    leaves [grad[i] = r.v[i]] for every [i < n]; (2) for the quadratic
    adapter with [n >= 1] that evaluation does yield a result.  (3) In any
    scalar arithmetic, a call of the exponential adapter at [(m, c)]
    returns the value of the loss evaluated on the seeds of [m] and [c],
    which is the plain sum, from left to right, of the squared residuals,
    and leaves in [grad[0]], [grad[1]] the two derivative entries of that
    loss.  (4) For the exponential example, built from the 67 observations
    of [main], this holds in any arithmetic, IEEE doubles included: the
    value is the sum of the 67 squared residuals accumulated from left to
    right in that arithmetic, and the gradient is the pair of derivative
    entries the dual-number arithmetic carries.  (5) In exact real
    arithmetic the returned value is [sum_i (exp(m x_i + c) - y_i)^2] and
    [grad[0]], [grad[1]] are the partial derivatives of that sum with
    respect to [m] and [c]. *)
Theorem adapter_returns_value_and_gradient :
  (forall (D : Type) (AD : Arith D)
          (objective : list (Jet D) -> option (Jet D)) (px pgrad : addr)
          (s : state Wrapper.t D) (x g : list D) (r : Jet D),
     let N := Z.to_nat (Wrapper.n (this s)) in
     (0 <= Wrapper.n (this s))%Z ->
     heap s !! px = Some x -> heap s !! pgrad = Some g ->
     length x = N -> N <= length g ->
     objective (seed x N) = Some r -> dim N r ->
     exists s' g',
       Wrapper.call objective px pgrad s = Some (ceres.a r, s') /\
       heap s' !! pgrad = Some g' /\
       forall i, i < N -> g' !! i = ceres.v r !! i) /\
  (forall (D : Type) (AD : Arith D) (x : list D) (N : nat),
     1 <= N -> length x = N ->
     exists r, simple_quad (seed x N) = Some r /\ dim N r) /\
  (forall (D : Type) (AD : Arith D) (ED : Elementary D)
          (pparams pgrad : addr) (s : state (ExpFit.t D) D)
          (p g : list D) (m c : D),
     let xs := ExpFit.x_data (this s) in
     let ys := ExpFit.y_data (this s) in
     let result :=
       loss_of ExpFit.JetT xs ys (ExpFit.m_seed m) (ExpFit.c_seed c) in
     length xs <= length ys ->
     heap s !! pparams = Some p -> p !! 0 = Some m -> p !! 1 = Some c ->
     heap s !! pgrad = Some g -> 2 <= length g ->
     ceres.a result = loss_of (T := D) (fun d => d) xs ys m c /\
     exists (g0 g1 : D) (s' : state (ExpFit.t D) D),
       ExpFit.call pparams pgrad s = Some (ceres.a result, s') /\
       ceres.v result = [g0; g1] /\
       heap s' !! pgrad = Some (g0 :: g1 :: drop 2 g)) /\
  (forall (D : Type) (AD : Arith D) (ED : Elementary D)
          (obj : ExpFit.t D) (pparams pgrad : addr)
          (s : state (ExpFit.t D) D) (p g : list D) (m c : D),
     exponential.fun_ = Some obj -> this s = obj ->
     heap s !! pparams = Some p -> p !! 0 = Some m -> p !! 1 = Some c ->
     heap s !! pgrad = Some g -> 2 <= length g ->
     let xs := ExpFit.x_data obj in
     let ys := ExpFit.y_data obj in
     length xs = 67 /\ length ys = 67 /\
     exists (g0 g1 : D) (s' : state (ExpFit.t D) D),
       ExpFit.call pparams pgrad s
       = Some (loss_of (T := D) (fun d => d) xs ys m c, s') /\
       heap s' !! pgrad = Some (g0 :: g1 :: drop 2 g) /\
       ceres.v (loss_of ExpFit.JetT xs ys (ExpFit.m_seed m) (ExpFit.c_seed c))
       = [g0; g1]) /\
  (forall (obj : ExpFit.t R) (pparams pgrad : addr)
          (s : state (ExpFit.t R) R) (p g : list R) (m c : R),
     exponential.fun_ = Some obj -> this s = obj ->
     heap s !! pparams = Some p -> p !! 0 = Some m -> p !! 1 = Some c ->
     heap s !! pgrad = Some g -> 2 <= length g ->
     let xs := ExpFit.x_data obj in
     let ys := ExpFit.y_data obj in
     length xs = 67 /\ length ys = 67 /\
     exists (g0 g1 : R) (s' : state (ExpFit.t R) R),
       ExpFit.call pparams pgrad s = Some (exp_loss xs ys m c, s') /\
       heap s' !! pgrad = Some (g0 :: g1 :: drop 2 g) /\
       derivable_pt_lim (fun t => exp_loss xs ys t c) m g0 /\
       derivable_pt_lim (fun t => exp_loss xs ys m t) c g1).
Proof.
  split; [| split; [| split; [| split]]].
  - intros D AD objective px pgrad s x g r N Hn Hpx Hpg Hx Hg Hobj Hr.
    exists (graded s pgrad N (ceres.v r) g), (overwrite N (ceres.v r) g).
    unfold dim in Hr. split; [| split].
    + apply (Wrapper_call_spec objective px pgrad s x g r); (done || lia).
    + simpl. apply lookup_insert_eq.
    + intros i Hi. apply overwrite_lookup_lt; lia.
  - intros D AD x N HN Hx. apply simple_quad_dim; [apply seed_dim |].
    rewrite seed_length; lia.
  - intros D AD ED pparams pgrad s p g m c xs ys result Hdata Hpp Hm Hc Hpg Hg.
    split; [apply loss_of_value |].
    assert (Hres : dim 2 result) by (by apply loss_of_dim). unfold dim in Hres.
    destruct (ceres.v result) as [| g0 [| g1 [| g2 l]]] eqn:Hv;
      simpl in Hres; try lia.
    exists g0, g1, (graded s pgrad 2 (ceres.v result) g).
    split; [by apply (ExpFit_call_spec pparams pgrad s p g m c) |].
    split; [reflexivity |].
    simpl. rewrite lookup_insert_eq, Hv. reflexivity.
  - intros D AD ED obj pparams pgrad s p g m c Hfun Hthis Hpp Hm Hc Hpg Hg
      xs ys.
    destruct (extract_observations (D := D)) as (xs' & ys' & Hex & Hxs & Hys).
    unfold exponential.fun_ in Hfun. rewrite Hex in Hfun. simpl in Hfun.
    injection Hfun as <-. simpl in xs, ys. subst xs ys.
    split; [exact Hxs |]. split; [exact Hys |].
    set (L := loss_of ExpFit.JetT xs' ys' (ExpFit.m_seed m) (ExpFit.c_seed c)).
    assert (HL : dim 2 L) by (by apply loss_of_dim). unfold dim in HL.
    destruct (ceres.v L) as [| g0 [| g1 [| g2 l]]] eqn:Hv;
      simpl in HL; try lia.
    exists g0, g1.
    pose proof (ExpFit_call_spec pparams pgrad s p g m c Hpp Hm Hc Hpg Hg)
      as Hcall.
    rewrite Hthis in Hcall. simpl in Hcall. fold L in Hcall.
    rewrite Hv in Hcall. unfold L in Hcall. rewrite loss_of_value in Hcall.
    eexists. split; [apply Hcall; lia |]. split; [| reflexivity].
    simpl. rewrite lookup_insert_eq. reflexivity.
  - intros obj pparams pgrad s p g m c Hfun Hthis Hpp Hm Hc Hpg Hg xs ys.
    destruct (extract_observations (D := R)) as (xs' & ys' & Hex & Hxs & Hys).
    unfold exponential.fun_ in Hfun. rewrite Hex in Hfun. simpl in Hfun.
    injection Hfun as <-. simpl in xs, ys. subst xs ys.
    split; [exact Hxs |]. split; [exact Hys |].
    destruct (loss_gradient xs' ys' m c) as (g0 & g1 & Hv & Hd0 & Hd1).
    exists g0, g1.
    pose proof (ExpFit_call_spec pparams pgrad s p g m c Hpp Hm Hc Hpg Hg)
      as Hcall.
    rewrite Hthis in Hcall. simpl in Hcall.
    rewrite Hv, loss_of_value, loss_of_R in Hcall.
    eexists. split; [apply Hcall; lia |]. split; [| by split].
    simpl. rewrite lookup_insert_eq. reflexivity.
Qed.

Lemma adapter_returns_value_and_gradient_witness :
  (exists s' g',
     Wrapper.call simple_quad 1%positive 2%positive
       (mkState (Wrapper.mk 1)
          {[ 1%positive := [0%float]; 2%positive := [0%float] ]} [])
     = Some (50%float, s') /\
     heap s' !! 2%positive = Some g' /\
     forall i, i < 1 -> g' !! i = [(-10)%float] !! i) /\
  (exists r : Jet float, simple_quad (seed [0%float] 1) = Some r /\ dim 1 r) /\
  (exists (fx g0 g1 : R) (s' : state (ExpFit.t R) R),
     ExpFit.call 1%positive 2%positive
       (mkState (ExpFit.mk [1%R] [2%R])
          {[ 1%positive := [0%R; 0%R]; 2%positive := [7%R; 8%R; 9%R] ]} [])
     = Some (fx, s') /\
     heap s' !! 2%positive = Some [g0; g1; 9%R]) /\
  (exists obj : ExpFit.t R,
     exponential.fun_ = Some obj /\
     length (ExpFit.x_data obj) = 67 /\ length (ExpFit.y_data obj) = 67).
Proof.
  destruct adapter_returns_value_and_gradient
    as (Hgen & Hquad & Hany & _ & Hexp).
  split; [| split; [| split]].
  - apply (Hgen float _ simple_quad 1%positive 2%positive
             (mkState (Wrapper.mk 1)
                {[ 1%positive := [0%float]; 2%positive := [0%float] ]} [])
             [0%float] [0%float] (mkJet 50%float [(-10)%float]));
      try reflexivity; simpl; lia.
  - apply (Hquad float _ [0%float] 1); [lia | reflexivity].
  - destruct (Hany R _ _ 1%positive 2%positive
                (mkState (ExpFit.mk [1%R] [2%R])
                   {[ 1%positive := [0%R; 0%R];
                      2%positive := [7%R; 8%R; 9%R] ]} [])
                [0%R; 0%R] [7%R; 8%R; 9%R] 0%R 0%R)
      as (_ & g0 & g1 & s' & Hcall & _ & Hg); try reflexivity;
      try (simpl; lia).
    eexists _, g0, g1, s'. split; [exact Hcall | exact Hg].
  - destruct (extract_observations (D := R)) as (xs & ys & Hex & _).
    exists (ExpFit.mk xs ys).
    assert (Hfun : exponential.fun_ = Some (ExpFit.mk xs ys)).
    { unfold exponential.fun_. rewrite Hex. reflexivity. }
    split; [exact Hfun |].
    destruct (Hexp (ExpFit.mk xs ys) 1%positive 2%positive
                (mkState (ExpFit.mk xs ys)
                   {[ 1%positive := [0%R; 0%R]; 2%positive := [0%R; 0%R] ]} [])
                [0%R; 0%R] [0%R; 0%R] 0%R 0%R Hfun)
      as (Hxs & Hys & _); try reflexivity.
    split; [exact Hxs | exact Hys].
Defined.

(** C2 (seeding orthogonality).  In a call of a dynamic adapter with
    [n >= 1] on a vector [x] of at least [n] components, the objective is
    evaluated on [n] dual numbers [x_jet] of which the one at index [i] has
    the value [x[i]] and [n] derivatives, 1.0 at position [i] and 0.0 at
    every other position: whatever the objective is, the call faults when
    the objective has no value on [x_jet], and otherwise returns the value
    of its result [r] on [x_jet] and assigns [grad[0..n)] from [r]'s
    derivatives.  In particular, with the objective that returns its
    [i]-th argument, the call returns [x[i]] and leaves in [grad[0..n)] the
    [i]-th standard basis vector.  The exponential adapter returns what
    the loss is on the dual numbers [(params[0], (1.0, 0.0))] and
    [(params[1], (0.0, 1.0))]. *)
Theorem seeding_orthogonality {D : Type} `{Arith D} (px pgrad : addr) :
  (forall (s : state Wrapper.t D) (x g : list D),
     let N := Z.to_nat (Wrapper.n (this s)) in
     (1 <= Wrapper.n (this s))%Z ->
     heap s !! px = Some x -> heap s !! pgrad = Some g ->
     N <= length x -> N <= length g ->
     exists x_jet : list (Jet D),
       length x_jet = N /\
       (forall i, i < N ->
          exists (xi : D) (d : list D),
            x !! i = Some xi /\ x_jet !! i = Some (mkJet xi d) /\
            length d = N /\
            forall k, k < N ->
              d !! k = Some (if decide (k = i) then lit 1 else lit 0)) /\
       (forall objective : list (Jet D) -> option (Jet D),
          (objective x_jet = None ->
           Wrapper.call objective px pgrad s = None) /\
          (forall r, objective x_jet = Some r -> N <= length (ceres.v r) ->
             Wrapper.call objective px pgrad s
             = Some (ceres.a r, graded s pgrad N (ceres.v r) g))) /\
       (forall i xi, i < N -> x !! i = Some xi ->
          exists (e : list D) (s' : state Wrapper.t D),
            Wrapper.call (fun js => js !! i) px pgrad s = Some (xi, s') /\
            heap s' !! pgrad = Some (e ++ drop N g) /\
            length e = N /\
            forall k, k < N ->
              e !! k = Some (if decide (k = i) then lit 1 else lit 0))) /\
  (forall (ED : Elementary D) (s : state (ExpFit.t D) D) (p g : list D)
          (p0 p1 : D),
     heap s !! px = Some p -> p !! 0 = Some p0 -> p !! 1 = Some p1 ->
     heap s !! pgrad = Some g -> 2 <= length g ->
     length (ExpFit.x_data (this s)) <= length (ExpFit.y_data (this s)) ->
     let L := loss_of ExpFit.JetT (ExpFit.x_data (this s))
                (ExpFit.y_data (this s))
                (mkJet p0 [lit 1; lit 0]) (mkJet p1 [lit 0; lit 1]) in
     ExpFit.call px pgrad s
     = Some (ceres.a L, graded s pgrad 2 (ceres.v L) g)).
Proof.
  split.
  - intros s x g N Hn Hpx Hpg Hx Hg. exists (seed x N).
    split; [by apply seed_length |]. split; [| split].
    + intros i Hi. destruct (lookup_lt_is_Some_2 x i) as [xi Hxi]; [lia |].
      exists xi, (basis N i). split; [exact Hxi |].
      split; [by apply seed_lookup |]. split; [apply basis_length |].
      intros k Hk. by apply basis_lookup.
    + intros objective. split.
      * intros Hnone.
        apply (Wrapper_call_None objective px pgrad s x); (done || lia).
      * intros r Hr Hlen.
        apply (Wrapper_call_spec objective px pgrad s x g r); (done || lia).
    + intros i xi Hi Hxi.
      exists (basis N i), (graded s pgrad N (basis N i) g).
      split; [| split; [| split]].
      * apply (Wrapper_call_spec (fun js => js !! i) px pgrad s x g
                 (mkJet xi (basis N i))); try done; try lia.
        -- by apply seed_lookup.
        -- simpl. by rewrite basis_length.
      * simpl. rewrite lookup_insert_eq. unfold overwrite.
        by rewrite take_ge by (rewrite basis_length; lia).
      * apply basis_length.
      * intros k Hk. by apply basis_lookup.
  - intros ED s p g p0 p1 Hpp Hp0 Hp1 Hpg Hg Hdata L.
    exact (ExpFit_call_spec px pgrad s p g p0 p1 Hpp Hp0 Hp1 Hpg Hg Hdata).
Qed.

Lemma seeding_orthogonality_witness :
  let s := mkState (Wrapper.mk 2)
             {[ 1%positive := [3; 4]%float; 2%positive := [9; 9; 9]%float ]}
             [] in
  exists s',
    Wrapper.call (fun js => js !! 1) 1%positive 2%positive s
    = Some (4%float, s') /\
    heap s' !! 2%positive = Some [0; 1; 9]%float.
Proof.
  intros s.
  destruct (proj1 (seeding_orthogonality (D := float) 1%positive 2%positive)
              s [3; 4]%float [9; 9; 9]%float)
    as (x_jet & _ & _ & _ & Hprobe); try reflexivity; try (simpl; lia).
  destruct (Hprobe 1 4%float) as (e & s' & Hcall & Hheap & Hlen & He);
    [simpl; lia | reflexivity |].
  exists s'. split; [exact Hcall |].
  transitivity (Some (e ++ drop 2 [9; 9; 9]%float)); [exact Hheap |].
  destruct e as [| e0 [| e1 [| e2 e]]]; try (simpl in Hlen; lia).
  pose proof (He 0 ltac:(simpl; lia)) as H0.
  pose proof (He 1 ltac:(simpl; lia)) as H1.
  simpl in H0, H1. injection H0 as ->. injection H1 as ->.
  vm_compute. reflexivity.
Defined.







(** C7 (idempotent evaluation).  Calling [PowellAutoDiff::operator()]
    twice in a row with the same vector [x] (at least 4 components, in a
    vector distinct from [grad]) returns the same value both times and
    leaves the same gradient vector, indeed the same heap, after the
    second call as after the first; likewise for
    [ExpFitAutoDiff::operator()]. *)
Theorem evaluation_is_idempotent {D : Type} `{Arith D} `{Elementary D}
    (px pgrad : addr) (x g : list D) :
  px <> pgrad ->
  (forall s : state Wrapper.t D,
     let N := Z.to_nat (Wrapper.n (this s)) in
     (4 <= Wrapper.n (this s))%Z ->
     heap s !! px = Some x -> heap s !! pgrad = Some g ->
     length x = N -> N <= length g ->
     exists fx s1 s2,
       PowellAutoDiff_call px pgrad s = Some (fx, s1) /\
       PowellAutoDiff_call px pgrad s1 = Some (fx, s2) /\
       heap s1 !! px = Some x /\
       heap s2 !! pgrad = heap s1 !! pgrad /\ heap s2 = heap s1) /\
  (forall s : state (ExpFit.t D) D,
     length (ExpFit.x_data (this s)) <= length (ExpFit.y_data (this s)) ->
     heap s !! px = Some x -> heap s !! pgrad = Some g ->
     2 <= length x -> 2 <= length g ->
     exists fx s1 s2,
       ExpFit.call px pgrad s = Some (fx, s1) /\
       ExpFit.call px pgrad s1 = Some (fx, s2) /\
       heap s1 !! px = Some x /\
       heap s2 !! pgrad = heap s1 !! pgrad /\ heap s2 = heap s1).
Proof.
  intros Hne. split.
  - intros s N Hn Hpx Hpg Hx Hg.
    destruct (powell_autodiff_dim N (seed x N)) as (r & Hr & Hd).
    { apply seed_dim. }
    { rewrite seed_length; lia. }
    destruct (Wrapper_call_twice powell_autodiff px pgrad s x g r)
      as (s1 & s2 & H1 & H2 & Hx1 & Hh); try done; try (unfold N in *; lia).
    exists (ceres.a r), s1, s2. rewrite Hh. by repeat split.
  - intros s Hdata Hpx Hpg Hx Hg.
    destruct (lookup_lt_is_Some_2 x 0) as [p0 Hp0]; [lia |].
    destruct (lookup_lt_is_Some_2 x 1) as [p1 Hp1]; [lia |].
    destruct (ExpFit_call_twice px pgrad s x g p0 p1)
      as (s1 & s2 & H1 & H2 & Hx1 & Hh); try done.
    eexists _, s1, s2. rewrite Hh. by repeat split.
Qed.

Lemma evaluation_is_idempotent_witness :
  let x := [3%R; (-1)%R; 0%R; 1%R] in
  let g := [0%R; 0%R; 0%R; 0%R] in
  let s := mkState (Wrapper.mk 4) {[ 1%positive := x; 2%positive := g ]} [] in
  exists fx s1 s2,
    PowellAutoDiff_call 1%positive 2%positive s = Some (fx, s1) /\
    PowellAutoDiff_call 1%positive 2%positive s1 = Some (fx, s2) /\
    heap s2 !! 2%positive = heap s1 !! 2%positive.
Proof.
  intros x g s.
  destruct (evaluation_is_idempotent (D := R) 1%positive 2%positive x g)
    as [HPowell _]; [discriminate |].
  destruct (HPowell s) as (fx & s1 & s2 & H1 & H2 & _ & Hg & _);
    try reflexivity; try (simpl; lia).
  exists fx, s1, s2. split; [exact H1 |]. split; [exact H2 | exact Hg].
Defined.

(** C8 (frame).  A call of [SimpleQuadAutoDiff::operator()] or of
    [ExpFitAutoDiff::operator()] whose [grad] is a vector distinct from
    [x] changes nothing but [grad]: the members of the adapter object
    ([n]; [x_data] and [y_data]) are the same after the call, [x] and every
    other vector of the heap are the same, and every element assignment of
    the call is to [grad].  The returned value and the gradient components
    depend on the adapter's members and on [x] alone: a second state [t]
    that agrees with [s] on these yields the same. *)
Theorem call_modifies_only_gradient {D : Type} `{Arith D} `{Elementary D}
    (px pgrad : addr) (x g : list D) :
  px <> pgrad ->
  (forall s : state Wrapper.t D,
     let N := Z.to_nat (Wrapper.n (this s)) in
     (1 <= Wrapper.n (this s))%Z ->
     heap s !! px = Some x -> heap s !! pgrad = Some g ->
     N <= length x -> N <= length g ->
     exists fx gs s',
       SimpleQuadAutoDiff_call px pgrad s = Some (fx, s') /\
       this s' = this s /\ heap s' !! px = Some x /\
       (forall q, q <> pgrad -> heap s' !! q = heap s !! q) /\
       heap s' !! pgrad = Some (overwrite N gs g) /\
       (exists log, written s' = written s ++ log /\
                    forall w, w ∈ log -> w.1 = pgrad) /\
       forall (t : state Wrapper.t D) (g' : list D),
         this t = this s -> heap t !! px = Some x ->
         heap t !! pgrad = Some g' -> N <= length g' ->
         exists t', SimpleQuadAutoDiff_call px pgrad t = Some (fx, t') /\
                    heap t' !! pgrad = Some (overwrite N gs g')) /\
  (forall s : state (ExpFit.t D) D,
     length (ExpFit.x_data (this s)) <= length (ExpFit.y_data (this s)) ->
     heap s !! px = Some x -> heap s !! pgrad = Some g ->
     2 <= length x -> 2 <= length g ->
     exists fx gs s',
       ExpFit.call px pgrad s = Some (fx, s') /\
       this s' = this s /\ heap s' !! px = Some x /\
       (forall q, q <> pgrad -> heap s' !! q = heap s !! q) /\
       heap s' !! pgrad = Some (overwrite 2 gs g) /\
       (exists log, written s' = written s ++ log /\
                    forall w, w ∈ log -> w.1 = pgrad) /\
       forall (t : state (ExpFit.t D) D) (g' : list D),
         this t = this s -> heap t !! px = Some x ->
         heap t !! pgrad = Some g' -> 2 <= length g' ->
         exists t', ExpFit.call px pgrad t = Some (fx, t') /\
                    heap t' !! pgrad = Some (overwrite 2 gs g')).
Proof.
  intros Hne. split.
  - intros s N Hn Hpx Hpg Hx Hg.
    destruct (Wrapper_call_returns simple_quad px pgrad s x g)
      as (r & Hobj & Hr & Hcall); try done; try lia.
    { apply simple_quad_seed; lia. }
    fold N in Hcall.
    destruct (graded_frame s pgrad N (ceres.v r) g) as (Hthis & Hq & Hgr & Hw).
    exists (ceres.a r), (ceres.v r), (graded s pgrad N (ceres.v r) g).
    split; [exact Hcall |]. split; [exact Hthis |].
    split; [by rewrite Hq |]. split; [exact Hq |]. split; [exact Hgr |].
    split.
    + exists (assignments pgrad N). split; [exact Hw |].
      intros w. apply assignments_target.
    + intros t g' Hthis' Hpx' Hpg' Hg'.
      exists (graded t pgrad N (ceres.v r) g'). split.
      * unfold dim in Hr. unfold N in *. rewrite <- Hthis' in *.
        apply (Wrapper_call_spec simple_quad px pgrad t x g' r);
          (done || lia).
      * simpl. apply lookup_insert_eq.
  - intros s Hdata Hpx Hpg Hx Hg.
    destruct (lookup_lt_is_Some_2 x 0) as [p0 Hp0]; [lia |].
    destruct (lookup_lt_is_Some_2 x 1) as [p1 Hp1]; [lia |].
    set (L := loss_of ExpFit.JetT (ExpFit.x_data (this s))
                (ExpFit.y_data (this s))
                (ExpFit.m_seed p0) (ExpFit.c_seed p1)).
    destruct (graded_frame s pgrad 2 (ceres.v L) g) as (Hthis & Hq & Hgr & Hw).
    exists (ceres.a L), (ceres.v L), (graded s pgrad 2 (ceres.v L) g).
    split; [by apply (ExpFit_call_spec px pgrad s x g p0 p1) |].
    split; [exact Hthis |]. split; [by rewrite Hq |]. split; [exact Hq |].
    split; [exact Hgr |]. split.
    + exists (assignments pgrad 2). split; [exact Hw |].
      intros w. apply assignments_target.
    + intros t g' Hthis' Hpx' Hpg' Hg'.
      exists (graded t pgrad 2 (ceres.v L) g'). split.
      * unfold L. rewrite <- Hthis'.
        apply (ExpFit_call_spec px pgrad t x g' p0 p1); try done.
        by rewrite Hthis'.
      * simpl. apply lookup_insert_eq.
Qed.

Lemma call_modifies_only_gradient_witness :
  let x := [0%R] in
  let g := [7%R; 8%R] in
  let s := mkState (Wrapper.mk 1) {[ 1%positive := x; 2%positive := g ]} [] in
  exists fx s',
    SimpleQuadAutoDiff_call 1%positive 2%positive s = Some (fx, s') /\
    this s' = this s /\ heap s' !! 1%positive = Some x.
Proof.
  intros x g s.
  destruct (call_modifies_only_gradient (D := R) 1%positive 2%positive x g)
    as [HQuad _]; [discriminate |].
  destruct (HQuad s) as (fx & gs & s' & Hcall & Hthis & Hx & _);
    try reflexivity; try (simpl; lia).
  exists fx, s'. split; [exact Hcall |]. split; [exact Hthis | exact Hx].
Defined.

(** C9 (Rosenbrock objective).  In any scalar arithmetic the loop of
    [rosenbrock_autodiff] computes [(x[0] - 1)^2] plus the terms
    [4 * (x[i] - x[i-1]^2)^2] for [i] from 1 to [n - 1], added in index
    order.  For a vector [x] of at least one real component this is
    [(x[0] - 1)^2 + sum_{i=1}^{n-1} 4 (x[i] - x[i-1]^2)^2], both at the
    plain scalar and, in the value component, at dual numbers whose values
    are [x]; for a vector of size exactly 1 the sum is empty and the result
    is [(x[0] - 1)^2]. *)
Theorem rosenbrock_autodiff_formula :
  (forall (D T : Type) (AD : Arith D) (ST : Scalar D T) (x : list T),
     rosenbrock_autodiff x = rosenbrock_closed x) /\
  (forall x : list R,
     1 <= length x ->
     rosenbrock_autodiff x = Some (rosenbrock_R x) /\
     (forall xs : list (Jet R), ceres.a <$> xs = x ->
        exists r, rosenbrock_autodiff xs = Some r /\
                  ceres.a r = rosenbrock_R x) /\
     (length x = 1 -> rosenbrock_R x = ((nth 0 x 0 - 1) ^ 2)%R)).
Proof.
  split; [intros D T AD ST x; apply rosenbrock_autodiff_closed |].
  intros x Hlen.
  assert (Hplain : rosenbrock_autodiff x = Some (rosenbrock_R x)).
  { rewrite rosenbrock_autodiff_closed. by apply rosenbrock_closed_R. }
  split; [exact Hplain |]. split.
  - intros xs Hxs. rewrite <- Hxs, rosenbrock_autodiff_value in Hplain.
    destruct (rosenbrock_autodiff xs) as [r |]; [| done].
    exists r. split; [reflexivity |]. simpl in Hplain. rewrite Hxs in Hplain.
    congruence.
  - intros H1. unfold rosenbrock_R. rewrite H1. simpl. unfold Rsum. simpl. lra.
Qed.

Lemma rosenbrock_autodiff_formula_witness :
  rosenbrock_autodiff [3%R; 4%R] = Some (rosenbrock_R [3%R; 4%R]) /\
  (exists r, rosenbrock_autodiff [mkJet 3%R [1%R; 0%R]; mkJet 4%R [0%R; 1%R]]
             = Some r /\ ceres.a r = rosenbrock_R [3%R; 4%R]).
Proof.
  destruct (proj2 rosenbrock_autodiff_formula [3%R; 4%R])
    as (Hplain & Hjet & _); [simpl; lia |].
  split; [exact Hplain |]. apply Hjet. reflexivity.
Defined.

(** C10, as stated, fails: the quadratic adapter constructed with [n = 0]
    and called with empty [x] and [grad] (their lengths are at least [n])
    faults, because [simple_quad] reads [x_jet[0]] of the empty [x_jet]. *)
Lemma accesses_in_bounds_counterexample :
  let s := mkState (Wrapper.mk 0)
             {[ 1%positive := @nil float; 2%positive := @nil float ]} [] in
  heap s !! 1%positive = Some [] /\ heap s !! 2%positive = Some [] /\
  Z.to_nat (Wrapper.n (this s)) <= length (@nil float) /\
  SimpleQuadAutoDiff_call 1%positive 2%positive s = None.
Proof. vm_compute. repeat split; reflexivity || lia. Qed.

(** C10 (amended).  In a call of the quadratic or of the Rosenbrock
    adapter with [n >= 1], or of the exponential adapter whose [y_data] is
    at least as long as its [x_data], where [x] and [grad] have at least
    [n] components ([n = 2] for the exponential), no index is out of range
    (the call returns) and the element assignments of the call are exactly
    [grad[0]], ..., [grad[n-1]], in this order. *)
Theorem accesses_in_bounds {D : Type} `{Arith D} `{Elementary D}
    (px pgrad : addr) (x g : list D) :
  (forall s : state Wrapper.t D,
     let N := Z.to_nat (Wrapper.n (this s)) in
     (1 <= Wrapper.n (this s))%Z ->
     heap s !! px = Some x -> heap s !! pgrad = Some g ->
     N <= length x -> N <= length g ->
     (exists fx s', SimpleQuadAutoDiff_call px pgrad s = Some (fx, s') /\
                    written s' = written s ++ assignments pgrad N) /\
     (exists fx s', RosenbrockAutoDiff_call px pgrad s = Some (fx, s') /\
                    written s' = written s ++ assignments pgrad N)) /\
  (forall s : state (ExpFit.t D) D,
     length (ExpFit.x_data (this s)) <= length (ExpFit.y_data (this s)) ->
     heap s !! px = Some x -> heap s !! pgrad = Some g ->
     2 <= length x -> 2 <= length g ->
     exists fx s', ExpFit.call px pgrad s = Some (fx, s') /\
                   written s' = written s ++ assignments pgrad 2).
Proof.
  split.
  - intros s N Hn Hpx Hpg Hx Hg. split.
    + destruct (Wrapper_call_returns simple_quad px pgrad s x g)
        as (r & _ & _ & Hcall); try done; try lia.
      { apply simple_quad_seed; lia. }
      eexists _, _. split; [exact Hcall | reflexivity].
    + destruct (Wrapper_call_returns rosenbrock_autodiff px pgrad s x g)
        as (r & _ & _ & Hcall); try done; try lia.
      { apply rosenbrock_autodiff_seed; lia. }
      eexists _, _. split; [exact Hcall | reflexivity].
  - intros s Hdata Hpx Hpg Hx Hg.
    destruct (lookup_lt_is_Some_2 x 0) as [p0 Hp0]; [lia |].
    destruct (lookup_lt_is_Some_2 x 1) as [p1 Hp1]; [lia |].
    eexists _, _. split;
      [by apply (ExpFit_call_spec px pgrad s x g p0 p1) | reflexivity].
Qed.

Lemma accesses_in_bounds_witness :
  let x := [0%R] in
  let g := [7%R; 8%R] in
  let s := mkState (Wrapper.mk 1) {[ 1%positive := x; 2%positive := g ]} [] in
  exists fx s',
    RosenbrockAutoDiff_call 1%positive 2%positive s = Some (fx, s') /\
    written s' = [(2%positive, 0%Z)].
Proof.
  intros x g s.
  destruct (accesses_in_bounds (D := R) 1%positive 2%positive x g)
    as [HWrapper _].
  destruct (HWrapper s) as [_ (fx & s' & Hcall & Hw)];
    try reflexivity; try (simpl; lia).
  exists fx, s'. split; [exact Hcall | exact Hw].
Defined.

(* ================================================================== *)
(** * When a call returns: reading the preconditions off a result *)
(* ================================================================== *)

(** The loop rule for what a finished loop has established. *)
Lemma for_range_partial {S} (I : nat -> S -> Prop) (body : Z -> S -> option S)
    (k : nat) (lo : Z) (s s' : S) :
  I 0 s ->
  (forall j s1 s2, j < k -> I j s1 ->
     body (lo + Z.of_nat j)%Z s1 = Some s2 -> I (Datatypes.S j) s2) ->
  for_range k lo body s = Some s' -> I k s'.
Proof.
  revert I lo s. induction k as [| k IH]; intros I lo s H0 Hstep Hrun.
  - simpl in Hrun. by injection Hrun as <-.
  - simpl in Hrun. destruct (body lo s) as [s1 |] eqn:Hb; [| done].
    simpl in Hrun.
    apply (IH (fun j => I (Datatypes.S j)) (lo + 1)%Z s1); [| | exact Hrun].
    + apply (Hstep 0 s s1); [lia | exact H0 |]. by rewrite Z.add_0_r.
    + intros j s2 s3 Hj Hs2 Hb3. apply (Hstep (Datatypes.S j) s2 s3);
        [lia | exact Hs2 |]. rewrite <- Hb3. f_equal. lia.
Qed.

Lemma for_M_partial {Obj D A} (I : nat -> A -> state Obj D -> Prop)
    (body : Z -> A -> M Obj D A) (N : nat) (init x' : A)
    (s s' : state Obj D) :
  I 0 init s ->
  (forall j x1 s1 x2 s2, j < N -> I j x1 s1 ->
     body (Z.of_nat j) x1 s1 = Some (x2, s2) -> I (Datatypes.S j) x2 s2) ->
  for_M 0 (Z.of_nat N) body init s = Some (x', s') -> I N x' s'.
Proof.
  intros H0 Hstep Hrun. unfold for_M, for_ in Hrun.
  replace (Z.to_nat (Z.of_nat N - 0)) with N in Hrun by lia.
  refine (for_range_partial (fun j xs => I j xs.1 xs.2) _ N 0%Z (init, s)
            (x', s') H0 _ Hrun).
  intros j [x1 s1] [x2 s2] Hj H1 Hb. rewrite Z.add_0_l in Hb.
  by apply (Hstep j x1 s1 x2 s2).
Qed.

Lemma bind_inv {Obj D A B} (m : M Obj D A) (k : A -> M Obj D B)
    (s : state Obj D) (r : B * state Obj D) :
  bind m k s = Some r -> exists x s1, m s = Some (x, s1) /\ k x s1 = Some r.
Proof.
  unfold bind. destruct (m s) as [[x s1] |]; [| done]. intros Hk. by exists x, s1.
Qed.

Lemma lift_inv {Obj D A} (o : option A) (x : A) (s s' : state Obj D) :
  lift o s = Some (x, s') -> o = Some x /\ s' = s.
Proof. unfold lift. destruct o; [| done]. intros [= -> ->]. done. Qed.

Lemma read_inv {Obj D} (p : addr) (i : Z) (e : D) (s s' : state Obj D) :
  read p i s = Some (e, s') ->
  s' = s /\ exists x, heap s !! p = Some x /\ at_ x i = Some e.
Proof.
  unfold read. destruct (heap s !! p) as [x |]; [| done]. simpl.
  destruct (at_ x i) as [e' |] eqn:He; [| done]. simpl.
  intros [= -> ->]. split; [done |]. by exists x.
Qed.

Lemma write_inv {Obj D} (p : addr) (i : Z) (e : D) (u : unit)
    (s s' : state Obj D) :
  write p i e s = Some (u, s') ->
  exists x, heap s !! p = Some x /\ (0 <= i < Z.of_nat (length x))%Z /\
    s' = mkState (this s) (<[p := <[Z.to_nat i := e]> x]> (heap s))
                 (written s ++ [(p, i)]).
Proof.
  unfold write. destruct (heap s !! p) as [x |]; [| done]. simpl.
  unfold set_. case_decide as Hi; [| done]. simpl.
  intros [= <-]. by exists x.
Qed.

Lemma at_Some_lt {A} (x : list A) (i : Z) (e : A) :
  at_ x i = Some e -> (0 <= i < Z.of_nat (length x))%Z.
Proof.
  unfold at_. case_decide as Hi; [| done].
  intros Hl. apply lookup_lt_Some in Hl. lia.
Qed.

Section WrapperInversion.
Context {D : Type} `{Arith D}.

(** A finished seeding loop has read [x[0]], ..., [x[N-1]]. *)
Lemma seeding_loop_inv (px : addr) (N : nat) (s s' : state Wrapper.t D)
    (x_jet : list (Jet D)) :
  for_M 0 (Z.of_nat N) (Wrapper.seed_step (Z.of_nat N) px)
    (replicate N ceres.Jet_default) s = Some (x_jet, s') ->
  1 <= N -> exists x, heap s !! px = Some x /\ N <= length x.
Proof.
  intros Hrun.
  apply (for_M_partial
    (fun j (_ : list (Jet D)) s1 =>
       s1 = s /\ (1 <= j -> exists x, heap s !! px = Some x /\ j <= length x))
    _ N _ x_jet s s') in Hrun.
  - by destruct Hrun as [_ Hx].
  - split; [done | lia].
  - intros j x1 s1 x2 s2 Hj [-> Hprev] Hb.
    unfold Wrapper.seed_step in Hb.
    apply bind_inv in Hb as (deriv & s3 & Hd & Hb).
    apply lift_inv in Hd as [_ ->].
    apply bind_inv in Hb as (xi & s4 & Hr & Hb).
    apply read_inv in Hr as [-> (x & Hx & Hxi)].
    apply lift_inv in Hb as [_ ->]. split; [done |].
    intros _. exists x. split; [exact Hx |].
    apply at_Some_lt in Hxi. lia.
Qed.

(** A finished gradient loop has assigned [grad[0]], ..., [grad[N-1]]. *)
Lemma gradient_loop_inv {Obj} (pgrad : addr) (gs : list D) (N : nat)
    (s s' : state Obj D) (u : unit) :
  for_M 0 (Z.of_nat N)
    (fun i _ => let* e := lift (at_ gs i) in write pgrad i e) tt s
  = Some (u, s') ->
  1 <= N ->
  N <= length gs /\ exists g, heap s !! pgrad = Some g /\ N <= length g.
Proof.
  intros Hrun.
  apply (for_M_partial
    (fun j (_ : unit) s1 =>
       length <$> heap s1 !! pgrad = length <$> heap s !! pgrad /\
       (1 <= j -> j <= length gs /\
                  exists g, heap s !! pgrad = Some g /\ j <= length g))
    _ N _ u s s') in Hrun.
  - by destruct Hrun as [_ Hg].
  - split; [done | lia].
  - intros j [] s1 [] s2 Hj [Hsize Hprev] Hb.
    apply bind_inv in Hb as (e & s3 & He & Hb).
    apply lift_inv in He as [He ->].
    apply write_inv in Hb as (x1 & Hx1 & Hi & ->).
    apply at_Some_lt in He.
    rewrite Hx1 in Hsize. simpl in *.
    split.
    + rewrite lookup_insert_eq. simpl. by rewrite length_insert.
    + intros _. split; [lia |].
      destruct (heap s !! pgrad) as [g |]; [| done].
      exists g. split; [done |]. simpl in Hsize. injection Hsize as Hsize. lia.
Qed.

(** What a returned call of a dynamic adapter tells, for an objective that
    has no value on an empty vector. *)
Lemma Wrapper_call_inv (objective : list (Jet D) -> option (Jet D))
    (px pgrad : addr) (s s' : state Wrapper.t D) (fx : D) :
  objective [] = None ->
  Wrapper.call objective px pgrad s = Some (fx, s') ->
  let N := Z.to_nat (Wrapper.n (this s)) in
  exists x g r,
    (1 <= Wrapper.n (this s))%Z /\
    heap s !! px = Some x /\ heap s !! pgrad = Some g /\
    N <= length x /\ N <= length g /\
    objective (seed x N) = Some r /\ N <= length (ceres.v r) /\
    fx = ceres.a r /\ s' = graded s pgrad N (ceres.v r) g.
Proof.
  intros Hempty Hcall N. unfold Wrapper.call in Hcall.
  apply bind_inv in Hcall as (size & s1 & Hsize & Hcall).
  unfold member in Hsize. injection Hsize as <- <-.
  apply bind_inv in Hcall as (x_jet0 & s1 & Hnew & Hcall).
  apply lift_inv in Hnew as [Hnew ->].
  unfold Wrapper.new_jets in Hnew. case_decide as Hn; [| done].
  injection Hnew as <-. fold N in Hcall.
  apply bind_inv in Hcall as (x_jet & s1 & Hseed & Hcall).
  replace (Wrapper.n (this s)) with (Z.of_nat N) in Hseed, Hcall
    by (unfold N; lia).
  apply bind_inv in Hcall as (r & s2 & Hobj & Hcall).
  apply lift_inv in Hobj as [Hobj ->].
  apply bind_inv in Hcall as ([] & s3 & Hgrad & Hret).
  injection Hret as <- <-.
  destruct (decide (N = 0)) as [HN0 | HN0].
  { exfalso. rewrite HN0 in Hseed. unfold for_M, for_ in Hseed. simpl in Hseed.
    injection Hseed as <- <-. congruence. }
  destruct (seeding_loop_inv px N s s1 x_jet Hseed) as (x & Hpx & Hx); [lia |].
  rewrite (seeding_loop px x N s Hpx Hx) in Hseed. injection Hseed as <- <-.
  destruct (gradient_loop_inv pgrad (ceres.v r) N s s3 tt Hgrad)
    as (Hr & g & Hpg & Hg); [lia |].
  rewrite (gradient_loop pgrad (ceres.v r) g N s Hpg Hg Hr) in Hgrad.
  injection Hgrad as <-.
  exists x, g, r. repeat split; try done. unfold N in *. lia.
Qed.
End WrapperInversion.

Section ExpFitInversion.
Context {D : Type} `{Arith D} `{Elementary D}.

(** A finished loop over the observations has read [y_data[i]] for every
    index of [x_data]. *)
Lemma loss_loop_inv (m c loss L : Jet D) (s s' : state (ExpFit.t D) D) :
  for_M 0 (Z.of_nat (length (ExpFit.x_data (this s))))
    (ExpFit.loss_step m c) loss s = Some (L, s') ->
  length (ExpFit.x_data (this s)) <= length (ExpFit.y_data (this s)).
Proof.
  intros Hrun.
  apply (for_M_partial
    (fun j (_ : Jet D) s1 => s1 = s /\ j <= length (ExpFit.y_data (this s)))
    _ _ _ L s s') in Hrun.
  - by destruct Hrun as [_ Hy].
  - split; [done | lia].
  - intros j l1 s1 l2 s2 Hj [-> Hprev] Hb.
    unfold ExpFit.loss_step in Hb.
    apply bind_inv in Hb as (xi & s3 & Hxi & Hb).
    apply bind_inv in Hxi as (xs & s4 & Hxs & Hxi).
    unfold member in Hxs. injection Hxs as <- <-.
    apply lift_inv in Hxi as [_ ->].
    apply bind_inv in Hb as (yi & s5 & Hyi & Hb).
    apply bind_inv in Hyi as (ys & s6 & Hys & Hyi).
    unfold member in Hys. injection Hys as <- <-.
    apply lift_inv in Hyi as [Hyi ->].
    unfold ret in Hb. injection Hb as _ <-. split; [done |].
    apply at_Some_lt in Hyi. lia.
Qed.

(** What a returned call of the exponential adapter tells. *)
Lemma ExpFit_call_inv (pparams pgrad : addr) (s s' : state (ExpFit.t D) D)
    (fx : D) :
  ExpFit.call pparams pgrad s = Some (fx, s') ->
  exists p g p0 p1,
    heap s !! pparams = Some p /\ p !! 0 = Some p0 /\ p !! 1 = Some p1 /\
    heap s !! pgrad = Some g /\ 2 <= length g /\
    length (ExpFit.x_data (this s)) <= length (ExpFit.y_data (this s)) /\
    let L := loss_of ExpFit.JetT (ExpFit.x_data (this s))
               (ExpFit.y_data (this s))
               (ExpFit.m_seed p0) (ExpFit.c_seed p1) in
    fx = ceres.a L /\ s' = graded s pgrad 2 (ceres.v L) g.
Proof.
  intros Hcall. pose proof Hcall as Hcall0. unfold ExpFit.call in Hcall.
  apply bind_inv in Hcall as (p0 & s1 & Hp0 & Hcall).
  apply read_inv in Hp0 as [-> (p & Hpp & Hp0)].
  apply bind_inv in Hcall as (p1 & s1 & Hp1 & Hcall).
  apply read_inv in Hp1 as [-> (p' & Hpp' & Hp1)].
  rewrite Hpp in Hpp'. injection Hpp' as <-.
  apply bind_inv in Hcall as (size & s1 & Hsize & Hcall).
  unfold member in Hsize. injection Hsize as <- <-.
  apply bind_inv in Hcall as (L & s1 & Hloop & Hcall).
  pose proof (loss_loop_inv _ _ _ _ s s1 Hloop) as Hdata.
  rewrite (loss_loop _ _ s Hdata) in Hloop. injection Hloop as <- <-.
  apply bind_inv in Hcall as (g0 & s1 & Hg0 & Hcall).
  apply lift_inv in Hg0 as [Hg0 ->].
  apply bind_inv in Hcall as ([] & s1 & Hw0 & Hcall).
  apply write_inv in Hw0 as (g & Hpg & Hi0 & ->).
  apply bind_inv in Hcall as (g1 & s1 & Hg1 & Hcall).
  apply lift_inv in Hg1 as [Hg1 ->].
  apply bind_inv in Hcall as ([] & s1 & Hw1 & Hcall).
  apply write_inv in Hw1 as (g' & Hpg' & Hi1 & ->).
  simpl in Hpg'. rewrite lookup_insert_eq in Hpg'. injection Hpg' as <-.
  rewrite length_insert in Hi1.
  assert (Hg : 2 <= length g) by lia.
  exists p, g, p0, p1.
  change (at_ p 0) with (p !! 0) in Hp0. change (at_ p 1) with (p !! 1) in Hp1.
  repeat (split; [done |]).
  pose proof (ExpFit_call_spec pparams pgrad s p g p0 p1 Hpp Hp0 Hp1 Hpg Hg
                Hdata) as Hspec.
  rewrite Hspec in Hcall0. injection Hcall0 as <- <-. done.
Qed.
End ExpFitInversion.

(* ================================================================== *)
(** * The gradient along every axis *)
(* ================================================================== *)

Section AxisGradients.
Local Open Scope R_scope.

Lemma tracks_ext (k : nat) (F G : R -> R) (t : R) (j : Jet R) :
  (forall s, F s = G s) -> tracks k F t j -> tracks k G t j.
Proof.
  intros HFG [Ha (d & Hd & HD)]. split; [by rewrite <- HFG |].
  exists d. split; [exact Hd |]. exact (derivable_pt_lim_ext F G t d HFG HD).
Qed.

Lemma tracks_scalar_sub (k : nat) (F : R -> R) (t s : R) (f : Jet R) :
  tracks k F t f -> tracks k (fun u => s - F u) t (s_sub_t s f).
Proof.
  intros [Hf (df & Hdf & HF)]. split.
  - simpl. by rewrite Hf.
  - exists (- df). split.
    + simpl. unfold ceres.vneg. by rewrite list_lookup_fmap, Hdf.
    + apply (derivable_pt_lim_eq _ _ (0 - df)); [| lra].
      exact (derivable_pt_lim_minus (fun _ => s) F t 0 df
               (derivable_pt_lim_const s t) HF).
Qed.

Lemma at_point_along (k : nat) (x : list R) (s : R) :
  at_point (along k x) s = <[k := s]> x.
Proof.
  unfold at_point, along. apply list_eq. intros i.
  rewrite list_lookup_fmap, list_lookup_imap.
  destruct (decide (i = k)) as [-> | Hik].
  - destruct (x !! k) as [xk |] eqn:Hk; simpl.
    + symmetry. apply list_lookup_insert_eq. by apply lookup_lt_Some in Hk.
    + symmetry. apply lookup_ge_None. rewrite length_insert.
      by apply lookup_ge_None.
  - rewrite list_lookup_insert_ne by done.
    by destruct (x !! i) as [xi |].
Qed.

Lemma seed_tracks_along (k N : nat) (x : list R) (xk : R) :
  length x = N -> x !! k = Some xk ->
  Forall2 (fun F j => tracks k F xk j) (along k x) (seed x N).
Proof.
  intros Hlen Hk.
  assert (HkN : (k < N)%nat) by (apply lookup_lt_Some in Hk; lia).
  apply Forall2_same_length_lookup_2.
  - unfold along. rewrite length_imap, seed_length; lia.
  - intros i F j HF Hj. unfold along in HF. rewrite list_lookup_imap in HF.
    destruct (x !! i) as [xi |] eqn:Hi; [| done]. simpl in HF.
    injection HF as <-.
    assert (HiN : (i < N)%nat) by (apply lookup_lt_Some in Hi; lia).
    rewrite (seed_lookup x N i xi HiN Hi) in Hj. injection Hj as <-.
    case_decide as Hik.
    + subst i. assert (xi = xk) as -> by congruence.
      by apply tracks_variable.
    + by apply tracks_parameter.
Qed.

(** The three objectives on dual numbers that track functions. *)
Lemma simple_quad_tracks (k : nat) (Fs : list (R -> R)) (t : R)
    (js : list (Jet R)) (r : Jet R) :
  Forall2 (fun F j => tracks k F t j) Fs js ->
  simple_quad js = Some r ->
  tracks k (fun s => simple_quad_R (at_point Fs s)) t r.
Proof.
  intros HFs Hr. destruct HFs as [| F0 j0 Fs js H0 _]; [done |].
  unfold simple_quad in Hr. simpl in Hr. injection Hr as <-.
  pose proof (tracks_scalar_sub k F0 t (lit 10%Q) j0 H0) as T.
  pose proof (tracks_mul k _ _ t _ _ (tracks_scale k _ t (lit 0.5%Q) _ T) T)
    as T2.
  refine (tracks_ext k _ _ t _ _ T2).
  intros s. unfold simple_quad_R. simpl. unfold Q2R. simpl. lra.
Qed.

Lemma rosenbrock_sum_tracks (k : nat) (Fs : list (R -> R)) (t : R)
    (js : list (Jet R)) :
  Forall2 (fun F j => tracks k F t j) Fs js ->
  forall (Fp Fa : R -> R) (jp ja : Jet R),
    tracks k Fp t jp -> tracks k Fa t ja ->
    tracks k (fun s => rosenbrock_sum (Fp s) (at_point Fs s) (Fa s)) t
      (rosenbrock_sum jp js ja).
Proof.
  induction 1 as [| F j Fs js HFj _ IH]; intros Fp Fa jp ja Hp Ha;
    [exact Ha |].
  pose proof (tracks_sub k _ _ t _ _ HFj (tracks_mul k _ _ t _ _ Hp Hp)) as T.
  pose proof (tracks_add k _ _ t _ _ Ha
                (tracks_mul k _ _ t _ _ (tracks_scale k _ t (lit 4%Q) _ T) T))
    as Tacc.
  exact (IH _ _ _ _ HFj Tacc).
Qed.

Lemma rosenbrock_autodiff_tracks (k : nat) (Fs : list (R -> R)) (t : R)
    (js : list (Jet R)) (r : Jet R) :
  Forall2 (fun F j => tracks k F t j) Fs js ->
  rosenbrock_autodiff js = Some r ->
  tracks k (fun s => rosenbrock_R (at_point Fs s)) t r.
Proof.
  intros HFs Hr. rewrite rosenbrock_autodiff_closed in Hr.
  destruct HFs as [| F0 j0 Fs js H0 HFs]; [done |].
  simpl in Hr. injection Hr as <-.
  pose proof (tracks_sub_scalar k F0 t (lit 1%Q) j0 H0) as T.
  pose proof (rosenbrock_sum_tracks k Fs t js HFs _ _ _ _ H0
                (tracks_mul k _ _ t _ _ T T)) as Tsum.
  refine (tracks_ext k _ _ t _ _ Tsum).
  intros s.
  pose proof (rosenbrock_closed_R (at_point (F0 :: Fs) s)) as Hc.
  simpl in Hc. specialize (Hc ltac:(lia)). by injection Hc.
Qed.

(** From tracking along every axis to the gradient. *)
Lemma seeds_gradient (objective : list (Jet R) -> option (Jet R))
    (f : list R -> R) (x : list R) (N : nat) (r : Jet R) :
  (forall k Fs t js r,
     Forall2 (fun F j => tracks k F t j) Fs js -> objective js = Some r ->
     tracks k (fun s => f (at_point Fs s)) t r) ->
  (1 <= N)%nat -> length x = N ->
  objective (seed x N) = Some r -> dim N r ->
  ceres.a r = f x /\ gradient_of f x (ceres.v r).
Proof.
  intros Htr HN Hlen Hobj Hd. unfold dim in Hd.
  assert (Hk : forall k xk, x !! k = Some xk ->
            tracks k (fun s => f (<[k := s]> x)) xk r).
  { intros k xk Hxk.
    refine (tracks_ext k _ _ xk r _
              (Htr k (along k x) xk (seed x N) r
                 (seed_tracks_along k N x xk Hlen Hxk) Hobj)).
    intros s. by rewrite at_point_along. }
  split.
  - destruct (lookup_lt_is_Some_2 x 0%nat) as [x0 Hx0]; [lia |].
    destruct (Hk 0%nat x0 Hx0) as [Ha _]. rewrite Ha.
    by rewrite list_insert_id.
  - split; [lia |]. intros k xk gk Hxk Hgk.
    destruct (Hk k xk Hxk) as [_ (d & Hd' & HD)].
    assert (d = gk) as <- by congruence. exact HD.
Qed.
End AxisGradients.

(* ================================================================== *)
(** * Where the objectives are defined *)
(* ================================================================== *)

Section Defined.
Context {D T : Type} `{Arith D} `{Scalar D T}.

Lemma simple_quad_is_Some (x : list T) :
  is_Some (simple_quad x) <-> 1 <= length x.
Proof.
  destruct x as [| x0 x]; simpl.
  - split; [intros [r Hr]; done | lia].
  - split; [lia | intros _; by eexists].
Qed.

Lemma rosenbrock_autodiff_is_Some (x : list T) :
  is_Some (rosenbrock_autodiff x) <-> 1 <= length x.
Proof.
  rewrite rosenbrock_autodiff_closed. destruct x as [| x0 x]; simpl.
  - split; [intros [r Hr]; done | lia].
  - split; [lia | intros _; by eexists].
Qed.

Lemma powell_autodiff_is_Some `{Transcendental D T} (x : list T) :
  is_Some (powell_autodiff x) <-> 4 <= length x.
Proof.
  destruct x as [| x0 [| x1 [| x2 [| x3 x]]]]; simpl;
    try (split; [intros [r Hr]; done | lia]).
  split; [lia | intros _; by eexists].
Qed.
End Defined.

Section DimPartial.
Context {D : Type} `{Arith D}.

Lemma simple_quad_keeps_dim (N : nat) (xs : list (Jet D)) (r : Jet D) :
  Forall (dim N) xs -> simple_quad xs = Some r -> dim N r.
Proof.
  intros Hxs Hr.
  destruct (simple_quad_dim N xs Hxs) as (r' & Hr' & Hd); [| congruence].
  apply simple_quad_is_Some. by exists r.
Qed.

Lemma rosenbrock_autodiff_keeps_dim (N : nat) (xs : list (Jet D)) (r : Jet D) :
  Forall (dim N) xs -> rosenbrock_autodiff xs = Some r -> dim N r.
Proof.
  intros Hxs Hr.
  destruct (rosenbrock_autodiff_dim N xs Hxs) as (r' & Hr' & Hd); [| congruence].
  apply rosenbrock_autodiff_is_Some. by exists r.
Qed.

Lemma powell_autodiff_keeps_dim `{Elementary D} (N : nat) (xs : list (Jet D))
    (r : Jet D) :
  Forall (dim N) xs -> powell_autodiff xs = Some r -> dim N r.
Proof.
  intros Hxs Hr.
  destruct (powell_autodiff_dim N xs Hxs) as (r' & Hr' & Hd); [| congruence].
  apply powell_autodiff_is_Some. by exists r.
Qed.

Lemma seed_values (x : list D) (N : nat) : ceres.a <$> seed x N = take N x.
Proof.
  unfold seed. apply list_eq. intros i.
  rewrite list_lookup_fmap, list_lookup_imap.
  by destruct (take N x !! i).
Qed.

Lemma take_overwrite (N : nat) (gs g : list D) :
  length gs = N -> take N (overwrite N gs g) = gs.
Proof.
  intros Hgs. unfold overwrite. rewrite (take_ge gs N) by lia.
  by apply take_app_length'.
Qed.

(** The exact outcome of a dynamic adapter: it returns exactly on the
    well-formed calls. *)
Lemma Wrapper_call_is_Some (objective : list (Jet D) -> option (Jet D))
    (m : nat) (px pgrad : addr) (s : state Wrapper.t D) :
  1 <= m ->
  (forall xs, is_Some (objective xs) <-> m <= length xs) ->
  (forall N xs r, Forall (dim N) xs -> objective xs = Some r -> dim N r) ->
  is_Some (Wrapper.call objective px pgrad s)
  <-> well_formed_call (Z.of_nat m) px pgrad s.
Proof.
  intros Hm Hdef Hdim. split.
  - intros [[fx s'] Hcall].
    apply Wrapper_call_inv in Hcall
      as (x & g & r & Hn & Hpx & Hpg & Hx & Hg & Hobj & _).
    + split; [| by exists x, g].
      assert (Hlen : m <= length (seed x (Z.to_nat (Wrapper.n (this s))))).
      { apply Hdef. by exists r. }
      rewrite seed_length in Hlen by done. lia.
    + destruct (objective []) as [r |] eqn:Hr; [| done].
      assert (Hlen : m <= length (@nil (Jet D))) by (apply Hdef; by exists r).
      simpl in Hlen. lia.
  - intros (Hn & x & g & Hpx & Hpg & Hx & Hg).
    destruct (proj2 (Hdef (seed x (Z.to_nat (Wrapper.n (this s))))))
      as [r Hr]; [rewrite seed_length by done; lia |].
    destruct (Wrapper_call_returns objective px pgrad s x g)
      as (r' & _ & _ & Hcall); try done; try lia.
    exists r. split; [exact Hr |]. apply (Hdim _ _ _ (seed_dim x _) Hr).
Qed.
End DimPartial.

Section CallsDefined.
Context {D : Type} `{Arith D}.

Lemma SimpleQuadAutoDiff_call_is_Some (px pgrad : addr)
    (s : state Wrapper.t D) :
  is_Some (SimpleQuadAutoDiff_call px pgrad s)
  <-> well_formed_call 1 px pgrad s.
Proof.
  apply (Wrapper_call_is_Some simple_quad 1); [lia | |].
  - intros xs. apply simple_quad_is_Some.
  - apply @simple_quad_keeps_dim.
Qed.

Lemma RosenbrockAutoDiff_call_is_Some (px pgrad : addr)
    (s : state Wrapper.t D) :
  is_Some (RosenbrockAutoDiff_call px pgrad s)
  <-> well_formed_call 1 px pgrad s.
Proof.
  apply (Wrapper_call_is_Some rosenbrock_autodiff 1); [lia | |].
  - intros xs. apply rosenbrock_autodiff_is_Some.
  - apply @rosenbrock_autodiff_keeps_dim.
Qed.

Lemma PowellAutoDiff_call_is_Some `{Elementary D} (px pgrad : addr)
    (s : state Wrapper.t D) :
  is_Some (PowellAutoDiff_call px pgrad s)
  <-> well_formed_call 4 px pgrad s.
Proof.
  apply (Wrapper_call_is_Some powell_autodiff 4); [lia | |].
  - intros xs. apply powell_autodiff_is_Some.
  - apply @powell_autodiff_keeps_dim.
Qed.
End CallsDefined.

(** A well-formed call on concrete vectors. *)
Ltac well_formed :=
  split; [simpl; lia |]; eexists _, _;
  split; [reflexivity |]; split; [reflexivity |]; simpl; lia.

(* ================================================================== *)
(** * Values, gradients and minima over the reals *)
(* ================================================================== *)

Section GradientOfCall.
Local Open Scope R_scope.

(** A returned call of a dynamic adapter over the reals: the value of the
    objective and its gradient. *)
Lemma Wrapper_gradient (objective : list (Jet R) -> option (Jet R))
    (f : list R -> R) (px pgrad : addr) (s s' : state Wrapper.t R)
    (fx : R) (x : list R) :
  objective [] = None ->
  (forall k Fs t js r,
     Forall2 (fun F j => tracks k F t j) Fs js -> objective js = Some r ->
     tracks k (fun s => f (at_point Fs s)) t r) ->
  (forall N xs r, Forall (dim N) xs -> objective xs = Some r -> dim N r) ->
  Wrapper.call objective px pgrad s = Some (fx, s') ->
  heap s !! px = Some x -> length x = Z.to_nat (Wrapper.n (this s)) ->
  fx = f x /\
  exists g', heap s' !! pgrad = Some g' /\
             gradient_of f x (take (Z.to_nat (Wrapper.n (this s))) g').
Proof.
  intros Hempty Htr Hdim Hcall Hpx Hlen.
  apply Wrapper_call_inv in Hcall
    as (x' & g & r & Hn & Hpx' & Hpg & Hx & Hg & Hobj & Hr & -> & ->);
    [| exact Hempty].
  assert (x' = x) as -> by congruence.
  set (N := Z.to_nat (Wrapper.n (this s))) in *.
  assert (Hd : dim N r) by (apply (Hdim N _ _ (seed_dim x N) Hobj)).
  destruct (seeds_gradient objective f x N r Htr) as [Ha Hgrad];
    try done; [lia |].
  split; [exact Ha |].
  exists (overwrite N (ceres.v r) g). split.
  - simpl. apply lookup_insert_eq.
  - by rewrite take_overwrite.
Qed.

(** A function that does not depend on coordinate [k] has derivative 0
    along it. *)
Lemma gradient_of_unused (f : list R -> R) (x g : list R) (k : nat) (gk : R) :
  gradient_of f x g -> g !! k = Some gk ->
  (forall t, f (<[k := t]> x) = f x) -> gk = 0.
Proof.
  intros [Hlen Hg] Hgk Hconst.
  destruct (lookup_lt_is_Some_2 x k) as [xk Hxk].
  { apply lookup_lt_Some in Hgk. lia. }
  apply (uniqueness_limite (fun t => f (<[k := t]> x)) xk).
  - by apply Hg.
  - apply (derivable_pt_lim_ext (fun _ => f x)); [by intros t |].
    apply derivable_pt_lim_const.
Qed.

Lemma nth_insert_ne {A} (l : list A) (i k : nat) (e d : A) :
  i <> k -> nth i (<[k := e]> l) d = nth i l d.
Proof.
  intros Hik. rewrite !nth_lookup. by rewrite list_lookup_insert_ne.
Qed.
End GradientOfCall.

Section Minima.
Local Open Scope R_scope.

Lemma sq_zero (r : R) : r ^ 2 = 0 <-> r = 0.
Proof.
  split; [| intros ->; lra]. intros Hr.
  assert (H : r * r = 0) by lra. apply Rmult_integral in H. lra.
Qed.

Lemma rosenbrock_sum_zero (rest : list R) (prev acc : R) :
  0 <= acc ->
  acc <= rosenbrock_sum prev rest acc /\
  (rosenbrock_sum prev rest acc = 0 <-> acc = 0 /\ squares prev rest).
Proof.
  revert prev acc. induction rest as [| xi rest IH]; intros prev acc Hacc.
  - simpl. split; [lra |]. tauto.
  - simpl rosenbrock_sum. simpl squares.
    match goal with
    | |- context [rosenbrock_sum xi rest ?e] => set (acc' := e)
    end.
    assert (Hacc' : acc' = acc + 4 * (xi - prev ^ 2) ^ 2).
    { unfold acc', sq. simpl. unfold Q2R. simpl. lra. }
    pose proof (pow2_ge_0 (xi - prev ^ 2)) as Hsq.
    destruct (IH xi acc') as [Hle Hz]; [lra |].
    split; [lra |]. rewrite Hz, Hacc'. split.
    + intros [Hsum Hrest].
      assert (Hx : (xi - prev ^ 2) ^ 2 = 0) by lra.
      apply (proj1 (sq_zero _)) in Hx. repeat split; [lra | lra | exact Hrest].
    + intros (-> & -> & Hrest). split; [lra | exact Hrest].
Qed.

Lemma squares_ones (rest : list R) :
  squares 1 rest <-> rest = replicate (length rest) 1.
Proof.
  assert (H1 : 1 ^ 2 = 1) by lra.
  induction rest as [| xi rest IH]; [done |].
  change (squares 1 (xi :: rest)) with (xi = 1 ^ 2 /\ squares xi rest).
  change (replicate (length (xi :: rest)) 1)
    with (1 :: replicate (length rest) 1).
  rewrite H1. split.
  - intros [-> Hrest]. f_equal. by apply IH.
  - intros Heq. injection Heq as -> Hrest. split; [done |]. by apply IH.
Qed.

Lemma rosenbrock_R_minimum (x : list R) :
  (1 <= length x)%nat ->
  0 <= rosenbrock_R x /\
  (rosenbrock_R x = 0 <-> x = replicate (length x) 1).
Proof.
  intros Hlen. pose proof (rosenbrock_closed_R x Hlen) as Hc.
  destruct x as [| x0 rest]; [simpl in Hlen; lia |].
  unfold rosenbrock_closed in Hc. injection Hc as Hc. rewrite <- Hc.
  match goal with
  | |- context [rosenbrock_sum x0 rest ?e] => set (acc := e)
  end.
  assert (Hacc : acc = (x0 - 1) ^ 2).
  { unfold acc, sq. simpl. unfold Q2R. simpl. lra. }
  rewrite Hacc. pose proof (pow2_ge_0 (x0 - 1)) as Hsq.
  destruct (rosenbrock_sum_zero rest x0 ((x0 - 1) ^ 2) Hsq) as [Hle Hz].
  split; [lra |]. rewrite Hz, sq_zero. simpl. split.
  - intros [Hx0 Hrest]. assert (x0 = 1) as -> by lra.
    f_equal. by apply squares_ones.
  - intros Heq. injection Heq as -> Hrest. split; [lra |].
    by apply squares_ones.
Qed.

End Minima.

Section ClosedGradients.
Local Open Scope R_scope.

(** The derivative of [c (a t + b)^n]. *)
Lemma derivable_pt_lim_affine_pow (c a b : R) (n : nat) (t0 : R) :
  derivable_pt_lim (fun t => c * (a * t + b) ^ n) t0
    (c * (INR n * (a * t0 + b) ^ pred n * a)).
Proof.
  assert (Hin : derivable_pt_lim (fun t => a * t + b) t0 a).
  { apply (derivable_pt_lim_eq _ _ (a * 1 + 0)); [| lra].
    exact (derivable_pt_lim_plus _ _ t0 _ _
             (derivable_pt_lim_scal (fun t => t) a t0 1
                (derivable_pt_lim_id t0))
             (derivable_pt_lim_const b t0)). }
  exact (derivable_pt_lim_scal _ c t0 _
           (derivable_pt_lim_comp _ _ t0 _ _ Hin
              (derivable_pt_lim_pow (a * t0 + b) n))).
Qed.

(** A component of the gradient is the derivative along its axis. *)
Lemma gradient_of_component (f : list R -> R) (x g : list R) (k : nat)
    (xk d : R) :
  gradient_of f x g -> x !! k = Some xk ->
  derivable_pt_lim (fun t => f (<[k := t]> x)) xk d ->
  g !! k = Some d.
Proof.
  intros [Hlen Hg] Hxk Hd.
  destruct (lookup_lt_is_Some_2 g k) as [gk Hgk].
  { apply lookup_lt_Some in Hxk. lia. }
  rewrite Hgk. f_equal.
  exact (uniqueness_limite _ xk gk d (Hg k xk gk Hxk Hgk) Hd).
Qed.

Lemma simple_quad_R_gradient (x0 : R) (x g : list R) :
  gradient_of simple_quad_R (x0 :: x) g ->
  g = (x0 - 10) :: replicate (length x) 0.
Proof.
  intros Hg. pose proof Hg as [Hlen _]. apply list_eq_same_length with (S (length x));
    [simpl; by rewrite length_replicate | exact Hlen |].
  intros k gk d Hk Hgk Hd. destruct k as [| k].
  - rewrite (gradient_of_component simple_quad_R _ g 0 x0 (x0 - 10) Hg) in Hgk;
      [simpl in Hd; congruence | done |].
    apply (derivable_pt_lim_ext
             (fun t => 0.5 * (-1 * t + 10) ^ 2)).
    { intros t. unfold simple_quad_R. simpl. lra. }
    apply (derivable_pt_lim_eq _ _ _ _
             (derivable_pt_lim_affine_pow 0.5 (-1) 10 2 x0)).
    simpl. lra.
  - simpl in Hd. apply lookup_replicate in Hd as [-> _].
    apply (gradient_of_unused simple_quad_R (x0 :: x) g (S k) gk Hg Hgk).
    intros t. reflexivity.
Qed.

End ClosedGradients.

Section Aliasing.
Context {D : Type} `{Arith D}.

Lemma Wrapper_call_aliased (objective : list (Jet D) -> option (Jet D))
    (p : addr) (s s' : state Wrapper.t D) (fx : D) (x : list D) :
  objective [] = None ->
  heap s !! p = Some x ->
  Wrapper.call objective p p s = Some (fx, s') ->
  exists gs,
    length gs = Z.to_nat (Wrapper.n (this s)) /\
    heap s' !! p = Some (gs ++ drop (Z.to_nat (Wrapper.n (this s))) x) /\
    forall (q : addr) (t : state Wrapper.t D) (g : list D),
      this t = this s -> heap t !! p = Some x -> heap t !! q = Some g ->
      Z.to_nat (Wrapper.n (this s)) <= length g ->
      exists t', Wrapper.call objective p q t = Some (fx, t') /\
                 heap t' !! q
                 = Some (gs ++ drop (Z.to_nat (Wrapper.n (this s))) g).
Proof.
  intros Hempty Hp Hcall.
  apply Wrapper_call_inv in Hcall
    as (x' & g' & r & Hn & Hpx & Hpg & Hx & Hg & Hobj & Hr & -> & ->);
    [| exact Hempty].
  assert (x' = x) as -> by congruence.
  assert (g' = x) as -> by congruence.
  set (N := Z.to_nat (Wrapper.n (this s))) in *.
  exists (take N (ceres.v r)). split; [rewrite length_take; lia |].
  split; [simpl; by rewrite lookup_insert_eq |].
  intros q t g Hthis Htp Htq HgN.
  rewrite (Wrapper_call_spec objective p q t x g r);
    rewrite ?Hthis; try done; try lia.
  eexists. split; [reflexivity |]. simpl. by rewrite lookup_insert_eq.
Qed.

End Aliasing.

(* ================================================================== *)
(** * Values in any arithmetic *)
(* ================================================================== *)

Section AnyArithmetic.
Context {D : Type} `{Arith D}.
Local Open Scope scalar_scope.

Lemma Wrapper_call_value (objective : list (Jet D) -> option (Jet D))
    (plain : list D -> option D) (px pgrad : addr)
    (s s' : state Wrapper.t D) (fx : D) (x : list D) :
  objective [] = None ->
  (forall xs, plain (ceres.a <$> xs) = ceres.a <$> objective xs) ->
  Wrapper.call objective px pgrad s = Some (fx, s') ->
  heap s !! px = Some x ->
  plain (take (Z.to_nat (Wrapper.n (this s))) x) = Some fx.
Proof.
  intros Hempty Hval Hcall Hpx.
  apply Wrapper_call_inv in Hcall
    as (x' & g & r & Hn & Hpx' & Hpg & Hx & Hg & Hobj & Hr & -> & ->);
    [| exact Hempty].
  assert (x' = x) as -> by congruence.
  rewrite <- seed_values, Hval, Hobj. reflexivity.
Qed.

Lemma zip_take_r {A B} (xs : list A) (ys : list B) :
  zip xs (take (length xs) ys) = zip xs ys.
Proof.
  revert ys. induction xs as [| x xs IH]; intros [| y ys]; simpl; try done.
  by rewrite IH.
Qed.

Lemma loss_of_take {T} `{Scalar D T} `{Transcendental D T} (const : D -> T) (xs ys : list D)
    (m c : T) :
  loss_of const xs (take (length xs) ys) m c = loss_of const xs ys m c.
Proof. unfold loss_of. by rewrite zip_take_r. Qed.

End AnyArithmetic.

(* ================================================================== *)
(** * Further properties of the objectives and their adapters *)
(* ================================================================== *)

(** ** quadratic.cpp *)

(** X1.  Over the reals, a call of the quadratic adapter on a vector [x]
    of [n] components that returns, returns [0.5 (10 - x[0])^2] and has
    left in [grad[0..n)] the gradient of that function at [x]: [grad[k]] is
    the derivative along coordinate [k], and it is 0 for every [k >= 1]. *)
Theorem SimpleQuadAutoDiff_gradient (px pgrad : addr)
    (s s' : state Wrapper.t R) (fx : R) (x : list R) :
  SimpleQuadAutoDiff_call px pgrad s = Some (fx, s') ->
  heap s !! px = Some x -> length x = Z.to_nat (Wrapper.n (this s)) ->
  fx = simple_quad_R x /\
  exists g', heap s' !! pgrad = Some g' /\
    gradient_of simple_quad_R x (take (Z.to_nat (Wrapper.n (this s))) g') /\
    forall k gk, 1 <= k -> take (Z.to_nat (Wrapper.n (this s))) g' !! k = Some gk ->
                 gk = 0%R.
Proof.
  intros Hcall Hpx Hlen.
  destruct (Wrapper_gradient simple_quad simple_quad_R px pgrad s s' fx x)
    as (Hfx & g' & Hg' & Hgrad); try done.
  - apply simple_quad_tracks.
  - apply @simple_quad_keeps_dim.
  - split; [exact Hfx |]. exists g'. split; [exact Hg' |].
    split; [exact Hgrad |]. intros k gk Hk Hgk.
    apply (gradient_of_unused simple_quad_R x _ k gk Hgrad Hgk).
    intros t. unfold simple_quad_R. rewrite nth_insert_ne by lia. reflexivity.
Qed.

Lemma SimpleQuadAutoDiff_gradient_witness :
  let s := mkState (Wrapper.mk 2)
             {[ 1%positive := [3%R; 4%R]; 2%positive := [0%R; 0%R; 7%R] ]} [] in
  exists fx s',
    SimpleQuadAutoDiff_call 1%positive 2%positive s = Some (fx, s') /\
    fx = simple_quad_R [3%R; 4%R] /\
    exists g', heap s' !! 2%positive = Some g' /\
      gradient_of simple_quad_R [3%R; 4%R] (take 2 g').
Proof.
  intros s.
  destruct (proj2 (SimpleQuadAutoDiff_call_is_Some 1%positive 2%positive s))
    as [[fx s'] Hcall]; [well_formed |].
  exists fx, s'. split; [exact Hcall |].
  destruct (SimpleQuadAutoDiff_gradient 1%positive 2%positive s s' fx
              [3%R; 4%R] Hcall) as (Hfx & g' & Hg' & Hgrad & _);
    [reflexivity | reflexivity |].
  split; [exact Hfx |]. exists g'. split; [exact Hg' | exact Hgrad].
Defined.

(** X2.  Over the reals, the gradient the quadratic adapter leaves for a
    vector [x] of [n] components is [(x[0] - 10, 0, ..., 0)]. *)
Theorem quadratic_gradient_closed_form (px pgrad : addr)
    (s s' : state Wrapper.t R) (fx x0 : R) (x : list R) :
  SimpleQuadAutoDiff_call px pgrad s = Some (fx, s') ->
  heap s !! px = Some (x0 :: x) ->
  length (x0 :: x) = Z.to_nat (Wrapper.n (this s)) ->
  exists g', heap s' !! pgrad = Some g' /\
    take (Z.to_nat (Wrapper.n (this s))) g'
    = (x0 - 10)%R :: replicate (length x) 0%R.
Proof.
  intros Hcall Hpx Hlen.
  destruct (Wrapper_gradient simple_quad simple_quad_R px pgrad s s' fx
              (x0 :: x)) as (_ & g' & Hg' & Hgrad); try done;
    [apply simple_quad_tracks | apply @simple_quad_keeps_dim |].
  exists g'. split; [exact Hg' |]. by apply simple_quad_R_gradient.
Qed.

Lemma quadratic_gradient_closed_form_witness :
  let s := mkState (Wrapper.mk 2)
             {[ 1%positive := [3%R; 4%R]; 2%positive := [0%R; 0%R; 9%R] ]} [] in
  exists fx s' g',
    SimpleQuadAutoDiff_call 1%positive 2%positive s = Some (fx, s') /\
    heap s' !! 2%positive = Some g' /\
    take 2 g' = [(3 - 10)%R; 0%R].
Proof.
  intros s.
  destruct (proj2 (SimpleQuadAutoDiff_call_is_Some 1%positive 2%positive s))
    as [[fx s'] Hcall]; [well_formed |].
  destruct (quadratic_gradient_closed_form 1%positive 2%positive s s' fx
              3%R [4%R] Hcall eq_refl eq_refl) as (g' & Hg' & Htake).
  exists fx, s', g'. split; [exact Hcall |]. split; [exact Hg' | exact Htake].
Defined.

(** X3.  Over the reals, the value the quadratic adapter returns is never
    negative, and it is 0 exactly when [x[0] = 10]. *)
Theorem quadratic_call_minimum (px pgrad : addr)
    (s s' : state Wrapper.t R) (fx : R) (x : list R) :
  SimpleQuadAutoDiff_call px pgrad s = Some (fx, s') ->
  heap s !! px = Some x -> length x = Z.to_nat (Wrapper.n (this s)) ->
  (0 <= fx)%R /\ (fx = 0%R <-> x !! 0 = Some 10%R).
Proof.
  intros Hcall Hpx Hlen.
  assert (HN : 1 <= length x).
  { apply Wrapper_call_inv in Hcall as (? & ? & ? & Hn & _); [lia | done]. }
  destruct (Wrapper_gradient simple_quad simple_quad_R px pgrad s s' fx x)
    as [-> _]; try done;
    [apply simple_quad_tracks | apply @simple_quad_keeps_dim |].
  destruct x as [| x0 x]; [simpl in HN; lia |].
  unfold simple_quad_R. simpl nth. simpl lookup.
  pose proof (pow2_ge_0 (10 - x0)) as Hsq.
  split; [lra |]. split.
  - intros Hz. assert (Hx : ((10 - x0) ^ 2 = 0)%R) by lra.
    apply (proj1 (sq_zero _)) in Hx. f_equal. lra.
  - intros Heq. injection Heq as ->. lra.
Qed.

Lemma quadratic_call_minimum_witness :
  let s := mkState (Wrapper.mk 1)
             {[ 1%positive := [10%R]; 2%positive := [7%R] ]} [] in
  exists s',
    SimpleQuadAutoDiff_call 1%positive 2%positive s = Some (0%R, s').
Proof.
  intros s.
  destruct (proj2 (SimpleQuadAutoDiff_call_is_Some 1%positive 2%positive s))
    as [[fx s'] Hcall]; [well_formed |].
  exists s'.
  destruct (quadratic_call_minimum 1%positive 2%positive s s' fx
              [10%R] Hcall eq_refl eq_refl) as [_ Hz].
  rewrite (proj2 Hz) in Hcall; [exact Hcall | reflexivity].
Defined.

(** ** rosenbrock.cpp *)

(** X5.  Over the reals, the value the Rosenbrock adapter returns for a
    vector [x] of [n] components is never negative, and it is 0 exactly at
    [x = (1, ..., 1)]. *)
Theorem rosenbrock_call_minimum (px pgrad : addr)
    (s s' : state Wrapper.t R) (fx : R) (x : list R) :
  RosenbrockAutoDiff_call px pgrad s = Some (fx, s') ->
  heap s !! px = Some x -> length x = Z.to_nat (Wrapper.n (this s)) ->
  (0 <= fx)%R /\
  (fx = 0%R <-> x = replicate (Z.to_nat (Wrapper.n (this s))) 1%R).
Proof.
  intros Hcall Hpx Hlen.
  assert (HN : 1 <= length x).
  { apply Wrapper_call_inv in Hcall as (? & ? & ? & Hn & _); [lia | done]. }
  destruct (Wrapper_gradient rosenbrock_autodiff rosenbrock_R px pgrad s s'
              fx x) as [-> _]; try done;
    [apply rosenbrock_autodiff_tracks | apply @rosenbrock_autodiff_keeps_dim |].
  rewrite <- Hlen. by apply rosenbrock_R_minimum.
Qed.

Lemma rosenbrock_call_minimum_witness :
  let s := mkState (Wrapper.mk 3)
             {[ 1%positive := [1%R; 1%R; 1%R];
                2%positive := [0%R; 0%R; 0%R] ]} [] in
  exists s',
    RosenbrockAutoDiff_call 1%positive 2%positive s = Some (0%R, s').
Proof.
  intros s.
  destruct (proj2 (RosenbrockAutoDiff_call_is_Some 1%positive 2%positive s))
    as [[fx s'] Hcall]; [well_formed |].
  exists s'.
  destruct (rosenbrock_call_minimum 1%positive 2%positive s s' fx
              [1%R; 1%R; 1%R] Hcall eq_refl eq_refl) as [_ Hz].
  rewrite (proj2 Hz) in Hcall; [exact Hcall | reflexivity].
Defined.

(** X6.  The Rosenbrock objective of a vector extended by one component
    [y] is that of the vector plus the one term [4 (y - p^2)^2], where [p]
    is the last component of the vector, added on the right as the loop
    adds it. *)
Theorem rosenbrock_autodiff_snoc {D T : Type} `{Arith D} `{Scalar D T}
    (x : list T)
    (p y : T) :
  last x = Some p ->
  rosenbrock_autodiff (x ++ [y])
  = (fx ← rosenbrock_autodiff x;
     Some (fx [+] lit 4 [.*] (y [-] p [*] p) [*] (y [-] p [*] p)))%S.
Proof.
  intros Hlast. rewrite !rosenbrock_autodiff_closed.
  destruct x as [| x0 rest]; [done |].
  unfold rosenbrock_closed. simpl app. simpl mbind. f_equal.
  generalize (sq (x0 [-.] lit 1)%S). revert x0 Hlast.
  induction rest as [| x1 rest IH]; intros x0 Hlast acc.
  - simpl in Hlast. injection Hlast as ->. reflexivity.
  - simpl. apply IH. by rewrite last_cons_cons in Hlast.
Qed.

Lemma rosenbrock_autodiff_snoc_witness :
  rosenbrock_autodiff ([3%float; 4%float] ++ [5%float])
  = (fx ← rosenbrock_autodiff [3%float; 4%float];
     Some (fx [+] lit 4 [.*] (5%float [-] 4%float [*] 4%float)
                     [*] (5%float [-] 4%float [*] 4%float)))%S.
Proof.
  apply (rosenbrock_autodiff_snoc [3%float; 4%float] 4%float 5%float).
  reflexivity.
Defined.

(** ** exponential.cpp *)

(** X10.  The exponential adapter returns exactly when [params] and [grad]
    are vectors with at least 2 components and [y_data] is at least as
    long as [x_data]. *)
Theorem expfit_call_returns_iff {D : Type} `{Arith D} `{Elementary D}
    (pparams pgrad : addr)
    (s : state (ExpFit.t D) D) :
  is_Some (ExpFit.call pparams pgrad s) <-> well_formed_fit pparams pgrad s.
Proof.
  split.
  - intros [[fx s'] Hcall].
    apply ExpFit_call_inv in Hcall
      as (p & g & p0 & p1 & Hpp & Hp0 & Hp1 & Hpg & Hg & Hdata & _).
    split; [exact Hdata |]. exists p, g. repeat (split; [done |]).
    split; [| exact Hg]. apply lookup_lt_Some in Hp1. lia.
  - intros (Hdata & p & g & Hpp & Hpg & Hp & Hg).
    destruct (lookup_lt_is_Some_2 p 0) as [p0 Hp0]; [lia |].
    destruct (lookup_lt_is_Some_2 p 1) as [p1 Hp1]; [lia |].
    rewrite (ExpFit_call_spec pparams pgrad s p g p0 p1) by done.
    by eexists.
Qed.

(** X11.  With no observations ([x_data] empty) the exponential adapter
    returns the loss 0 and sets [grad[0]] and [grad[1]] to 0, whatever the
    parameters and [y_data] are. *)
Theorem expfit_no_observations {D : Type} `{Arith D} `{Elementary D}
    (pparams pgrad : addr)
    (s : state (ExpFit.t D) D) :
  ExpFit.x_data (this s) = [] ->
  well_formed_fit pparams pgrad s ->
  exists s' g,
    ExpFit.call pparams pgrad s = Some (lit 0, s') /\
    heap s !! pgrad = Some g /\
    heap s' !! pgrad = Some (lit 0 :: lit 0 :: drop 2 g).
Proof.
  intros Hxs (Hdata & p & g & Hpp & Hpg & Hp & Hg).
  destruct (lookup_lt_is_Some_2 p 0) as [p0 Hp0]; [lia |].
  destruct (lookup_lt_is_Some_2 p 1) as [p1 Hp1]; [lia |].
  rewrite (ExpFit_call_spec pparams pgrad s p g p0 p1) by done.
  rewrite Hxs. eexists _, g. split; [reflexivity |]. split; [exact Hpg |].
  simpl. rewrite lookup_insert_eq. reflexivity.
Qed.

Lemma expfit_no_observations_witness :
  let s := mkState (ExpFit.mk [] [1%R])
             {[ 1%positive := [2%R; 3%R]; 2%positive := [7%R; 8%R; 9%R] ]} [] in
  exists s',
    ExpFit.call 1%positive 2%positive s = Some (lit 0, s') /\
    heap s' !! 2%positive = Some [lit 0; lit 0; 9%R].
Proof.
  intros s.
  destruct (expfit_no_observations 1%positive 2%positive s)
    as (s' & g & Hcall & Hg & Hg'); [reflexivity | |].
  - split; [simpl; lia |]. eexists _, _.
    split; [reflexivity |]. split; [reflexivity |]. simpl. lia.
  - exists s'. split; [exact Hcall |].
    assert (g = [7%R; 8%R; 9%R]) as -> by (by injection Hg).
    exact Hg'.
Defined.

(** X12.  The exponential adapter reads [y_data] only at the indices of
    [x_data]: two adapter objects with the same [x_data] whose [y_data]
    agree on the first [x_data.size()] entries return the same value and
    leave the same vectors. *)
Theorem expfit_ignores_surplus_targets {D : Type} `{Arith D}
    `{Elementary D} (pparams pgrad : addr)
    (s t s' : state (ExpFit.t D) D) (fx : D) :
  ExpFit.x_data (this t) = ExpFit.x_data (this s) ->
  take (length (ExpFit.x_data (this s))) (ExpFit.y_data (this t))
  = take (length (ExpFit.x_data (this s))) (ExpFit.y_data (this s)) ->
  heap t = heap s ->
  ExpFit.call pparams pgrad s = Some (fx, s') ->
  exists t', ExpFit.call pparams pgrad t = Some (fx, t') /\ heap t' = heap s'.
Proof.
  intros Hxs Hys Hheap Hcall.
  apply ExpFit_call_inv in Hcall
    as (p & g & p0 & p1 & Hpp & Hp0 & Hp1 & Hpg & Hg & Hdata & -> & ->).
  assert (Hdata' : length (ExpFit.x_data (this t))
                   <= length (ExpFit.y_data (this t))).
  { apply (f_equal length) in Hys. rewrite !length_take in Hys.
    rewrite Hxs. lia. }
  rewrite (ExpFit_call_spec pparams pgrad t p g p0 p1)
    by (done || by rewrite Hheap).
  rewrite Hxs.
  rewrite <- (loss_of_take _ _ (ExpFit.y_data (this t))), Hys, loss_of_take.
  eexists. split; [reflexivity |]. simpl. by rewrite Hheap.
Qed.

Lemma expfit_ignores_surplus_targets_witness :
  let heap0 : gmap addr (list R) :=
    {[ 1%positive := [0%R; 0%R]; 2%positive := [7%R; 8%R] ]} in
  let s := mkState (ExpFit.mk [1%R] [2%R]) heap0 [] in
  let t := mkState (ExpFit.mk [1%R] [2%R; 5%R]) heap0 [] in
  exists fx s' t',
    ExpFit.call 1%positive 2%positive s = Some (fx, s') /\
    ExpFit.call 1%positive 2%positive t = Some (fx, t') /\
    heap t' = heap s'.
Proof.
  intros heap0 s t.
  pose proof (ExpFit_call_spec 1%positive 2%positive s [0%R; 0%R]
                [7%R; 8%R] 0%R 0%R) as Hcall.
  simpl in Hcall.
  specialize (Hcall eq_refl eq_refl eq_refl eq_refl ltac:(lia) ltac:(lia)).
  destruct (expfit_ignores_surplus_targets 1%positive 2%positive s t _ _
              eq_refl eq_refl eq_refl Hcall) as (t' & Ht & Hheap).
  eexists _, _, t'. split; [exact Hcall |]. split; [exact Ht | exact Hheap].
Defined.

(** ** All adapters *)

(** X14.  In any arithmetic, the value a dynamic adapter returns is the one
    its objective template computes on plain scalars from [x[0..n)]:
    carrying derivatives along does not change the value. *)
Theorem adapter_value_is_plain_evaluation {D : Type} `{Arith D}
    `{Elementary D} (px pgrad : addr)
    (s s' : state Wrapper.t D) (fx : D) (x : list D) :
  heap s !! px = Some x ->
  (SimpleQuadAutoDiff_call px pgrad s = Some (fx, s') ->
   simple_quad (T := D) (take (Z.to_nat (Wrapper.n (this s))) x) = Some fx) /\
  (RosenbrockAutoDiff_call px pgrad s = Some (fx, s') ->
   rosenbrock_autodiff (T := D) (take (Z.to_nat (Wrapper.n (this s))) x)
   = Some fx) /\
  (PowellAutoDiff_call px pgrad s = Some (fx, s') ->
   powell_autodiff (T := D) (take (Z.to_nat (Wrapper.n (this s))) x)
   = Some fx).
Proof.
  intros Hpx. split; [| split]; intros Hcall.
  - apply (Wrapper_call_value simple_quad simple_quad px pgrad s s' fx x);
      try done. apply simple_quad_value.
  - apply (Wrapper_call_value rosenbrock_autodiff rosenbrock_autodiff
             px pgrad s s' fx x); try done. apply rosenbrock_autodiff_value.
  - apply (Wrapper_call_value powell_autodiff powell_autodiff
             px pgrad s s' fx x); try done. apply powell_autodiff_value.
Qed.

Lemma adapter_value_is_plain_evaluation_witness :
  let x := [3%R; 4%R; 5%R] in
  let s := mkState (Wrapper.mk 2)
             {[ 1%positive := x; 2%positive := [0%R; 0%R] ]} [] in
  exists fx s',
    RosenbrockAutoDiff_call 1%positive 2%positive s = Some (fx, s') /\
    rosenbrock_autodiff [3%R; 4%R] = Some fx.
Proof.
  intros x s.
  destruct (proj2 (RosenbrockAutoDiff_call_is_Some 1%positive 2%positive s))
    as [[fx s'] Hcall]; [well_formed |].
  exists fx, s'. split; [exact Hcall |].
  exact (proj1 (proj2 (adapter_value_is_plain_evaluation
                         1%positive 2%positive s s' fx x eq_refl)) Hcall).
Defined.

(** X15.  The quadratic and the Rosenbrock adapter return (rather than
    fault on an index out of range) exactly when [n >= 1] and [x] and
    [grad] are vectors with at least [n] components. *)
Theorem quadratic_rosenbrock_call_returns_iff {D : Type} `{Arith D}
    (px pgrad : addr) (s : state Wrapper.t D) :
  (is_Some (SimpleQuadAutoDiff_call px pgrad s)
   <-> well_formed_call 1 px pgrad s) /\
  (is_Some (RosenbrockAutoDiff_call px pgrad s)
   <-> well_formed_call 1 px pgrad s).
Proof.
  split.
  - apply SimpleQuadAutoDiff_call_is_Some.
  - apply RosenbrockAutoDiff_call_is_Some.
Qed.

(** X16.  The Powell adapter returns exactly when [n >= 4] and [x] and
    [grad] are vectors with at least [n] components: with [n < 4] the
    objective reads [x_jet[3]] out of range. *)
Theorem powell_call_returns_iff {D : Type} `{Arith D} `{Elementary D}
    (px pgrad : addr) (s : state Wrapper.t D) :
  is_Some (PowellAutoDiff_call px pgrad s) <-> well_formed_call 4 px pgrad s.
Proof. apply PowellAutoDiff_call_is_Some. Qed.

(** X17.  The objective templates keep the dimension of dual numbers: on
    arguments whose derivative vectors all have length [N], a result, if
    there is one, has a derivative vector of length [N]. *)
Theorem objectives_keep_dimension {D : Type} `{Arith D} `{Elementary D}
    (N : nat) :
  (forall (xs : list (Jet D)) (r : Jet D),
     Forall (dim N) xs ->
     (simple_quad xs = Some r -> dim N r) /\
     (rosenbrock_autodiff xs = Some r -> dim N r) /\
     (powell_autodiff xs = Some r -> dim N r)) /\
  (forall x m c : Jet D,
     dim N x -> dim N m -> dim N c -> dim N (exp_model x m c)).
Proof.
  split.
  - intros xs r Hxs. split; [| split].
    + by apply simple_quad_keeps_dim.
    + by apply rosenbrock_autodiff_keeps_dim.
    + by apply powell_autodiff_keeps_dim.
  - intros x m c Hx Hm Hc.
    unfold exp_model. apply dim_exp, dim_add; [| done]. by apply dim_mul.
Qed.

Lemma objectives_keep_dimension_witness :
  exists r : Jet R,
    simple_quad [mkJet 3%R [1%R; 0%R]; mkJet 4%R [0%R; 1%R]] = Some r /\
    dim 2 r.
Proof.
  eexists. split; [reflexivity |].
  apply (proj1 (proj1 (objectives_keep_dimension 2)
                  [mkJet 3%R [1%R; 0%R]; mkJet 4%R [0%R; 1%R]] _
                  ltac:(repeat constructor))).
  reflexivity.
Defined.

(** X18.  A dynamic adapter called with [grad] the same vector as [x]
    returns the value it returns with a separate [grad], and leaves in
    [x[0..n)] the gradient it would have left in that [grad]: the seeding
    loop has read all of [x] before the first component is assigned. *)
Theorem aliased_call_overwrites_x {D : Type} `{Arith D} `{Elementary D}
    (objective : list (Jet D) -> option (Jet D)) (p : addr)
    (s s' : state Wrapper.t D) (fx : D) (x : list D) :
  objective = simple_quad \/ objective = rosenbrock_autodiff
  \/ objective = powell_autodiff ->
  heap s !! p = Some x ->
  Wrapper.call objective p p s = Some (fx, s') ->
  exists gs,
    length gs = Z.to_nat (Wrapper.n (this s)) /\
    heap s' !! p = Some (gs ++ drop (Z.to_nat (Wrapper.n (this s))) x) /\
    forall (q : addr) (t : state Wrapper.t D) (g : list D),
      this t = this s -> heap t !! p = Some x -> heap t !! q = Some g ->
      Z.to_nat (Wrapper.n (this s)) <= length g ->
      exists t', Wrapper.call objective p q t = Some (fx, t') /\
                 heap t' !! q
                 = Some (gs ++ drop (Z.to_nat (Wrapper.n (this s))) g).
Proof.
  intros Hobj. apply Wrapper_call_aliased.
  destruct Hobj as [-> | [-> | ->]]; reflexivity.
Qed.

Lemma aliased_call_overwrites_x_witness :
  let x := [3%R; 4%R; 5%R] in
  let s := mkState (Wrapper.mk 2) {[ 1%positive := x ]} [] in
  exists fx s' gs,
    RosenbrockAutoDiff_call 1%positive 1%positive s = Some (fx, s') /\
    length gs = 2 /\ heap s' !! 1%positive = Some (gs ++ [5%R]).
Proof.
  intros x s.
  destruct (proj2 (RosenbrockAutoDiff_call_is_Some 1%positive 1%positive s))
    as [[fx s'] Hcall]; [well_formed |].
  destruct (aliased_call_overwrites_x rosenbrock_autodiff 1%positive s s' fx x
              (or_intror (or_introl eq_refl)) eq_refl Hcall)
    as (gs & Hlen & Hheap & _).
  exists fx, s', gs. split; [exact Hcall |]. split; [exact Hlen | exact Hheap].
Defined.
